(** * Intelephense core utilities: events, tree traversal, debouncing and the
    diagnostics provider.

    A shallow embedding of [types.ts] (classes [Event], [TreeTraverser],
    [FindVisitor], [Debounce]) and of [diagnosticsProvider.ts] (class
    [DiagnosticsProvider], [ErrorVisitor]), with the properties the
    specification states about them.

    Conventions of the embedding:
    - JavaScript numbers used as array indices, lengths and millisecond
      delays are integers ([Z]); arrays are lists;
    - objects compared by reference (handlers, tree nodes) carry an
      identity;
    - a method that mutates [this] takes the object and returns the new one;
    - [undefined]/[null] is [None]. *)

From Stdlib Require Import ZArith List Bool Lia.
From stdpp Require Import base option list strings pretty gmap.

Local Open Scope Z_scope.

(** ** JavaScript array primitives used by the sources *)

Module JsArray.
Section Ops.
Context {A : Type}.

Definition len (l : list A) : Z := Z.of_nat (length l).

(** [ToIntegerOrInfinity] followed by the relative-index clamp that
    [slice] and [splice] apply to their start and end arguments. *)
Definition clamp (l : list A) (k : Z) : Z :=
  if k <? 0 then Z.max (len l + k) 0 else Z.min k (len l).

(** [l[i]]: [undefined] outside [0 .. length-1]. *)
Definition at_ (l : list A) (i : Z) : option A :=
  if i <? 0 then None else l !! Z.to_nat i.

(** [l.slice(start, end)]; an [undefined] end means the length. *)
Definition slice (start : Z) (end_ : option Z) (l : list A) : list A :=
  let k := clamp l start in
  let e := match end_ with Some e => clamp l e | None => len l end in
  take (Z.to_nat (e - k)) (drop (Z.to_nat k) l).

(** [l.splice(start, deleteCount)]: the array that remains. *)
Definition splice (start deleteCount : Z) (l : list A) : list A :=
  let k := clamp l start in
  let d := Z.min (Z.max deleteCount 0) (len l - k) in
  take (Z.to_nat k) l ++ drop (Z.to_nat (k + d)) l.

(** [l.indexOf(x)] with [same] deciding strict equality against [x]. *)
Fixpoint indexOf_from (same : A -> bool) (l : list A) (n : Z) : Z :=
  match l with
  | [] => -1
  | y :: l' => if same y then n else indexOf_from same l' (n + 1)
  end.

Definition indexOf (same : A -> bool) (l : list A) : Z :=
  indexOf_from same l 0.

(** [l.pop()] and [l.push(x)]: the array that remains. *)
Definition pop (l : list A) : list A := removelast l.
Definition push (l : list A) (x : A) : list A := l ++ [x].

End Ops.
End JsArray.

(** ** [class Event<T>] *)

Module Events.
Section Event.
(** [H]: handler closures (compared by reference), [T]: the argument. *)
Context {H T : Type}.

Record Event := mkEvent { _subscribed : list H }.

(** [new Event()] *)
Definition constructor : Event := mkEvent [].

(** The closure [() => subscribed.splice(index, 1)] returned by
    [subscribe]: it captures the array of its event and [index]. *)
Record Unsubscribe := mkUnsubscribe { index : Z }.

(** [subscribe(handler)]: the event afterwards and the closure returned. *)
Definition subscribe (handler : H) (ev : Event) : Event * Unsubscribe :=
  let subscribed := JsArray.push (_subscribed ev) handler in
  let index := JsArray.len subscribed - 1 in
  (mkEvent subscribed, mkUnsubscribe index).

(** A call of the closure that [subscribe] returned. *)
Definition unsubscribe (u : Unsubscribe) (ev : Event) : Event :=
  mkEvent (JsArray.splice (index u) 1 (_subscribed ev)).

(** What a handler does to the event it is called from, through the
    event's public interface. *)
Inductive action :=
| Subscribe (h : H)
| CallUnsubscribe (u : Unsubscribe).

Definition perform1 (ev : Event) (a : action) : Event :=
  match a with
  | Subscribe h => fst (subscribe h ev)
  | CallUnsubscribe u => unsubscribe u ev
  end.

Definition perform (acts : list action) (ev : Event) : Event :=
  fold_left perform1 acts ev.

Section Trigger.
(** [body h args]: the calls handler [h] makes when invoked. *)
Variable body : H -> T -> list action.

(** The loop of [trigger]: [n < this._subscribed.length] is evaluated
    again on every iteration.  [calls] records the invocations.  The
    loop need not terminate (a handler may subscribe on each call),
    hence the fuel. *)
Fixpoint trigger_from (fuel : nat) (n : Z) (args : T) (ev : Event)
    (calls : list (H * T)) : option (Event * list (H * T)) :=
  match fuel with
  | O => None
  | S fuel' =>
      match JsArray.at_ (_subscribed ev) n with
      | None => Some (ev, calls)
      | Some handler =>
          trigger_from fuel' (n + 1) args
            (perform (body handler args) ev) (calls ++ [(handler, args)])
      end
  end.

(** [trigger(args)] *)
Definition trigger (fuel : nat) (args : T) (ev : Event) :=
  trigger_from fuel 0 args ev [].
End Trigger.

(** Handlers that leave the event alone. *)
Definition inert : H -> T -> list action := fun _ _ => [].

Definition subscribed_by (acts : list action) : list H :=
  omap (fun a => match a with Subscribe h => Some h | _ => None end) acts.

Definition only_subscribes (acts : list action) : Prop :=
  Forall (fun a => match a with Subscribe _ => True | _ => False end) acts.

Section Generations.
Variable body : H -> T -> list action.
Variable args : T.

(** The handlers that the handlers of [l] subscribe when they are called
    with [args], in the order of the calls. *)
Definition spawned (l : list H) : list H :=
  flat_map (fun h => subscribed_by (body h args)) l.

(** The subscribers by generation: generation 0 is [l], the handlers of
    generation [k + 1] are those that the handlers of generation [k]
    subscribe when called. *)
Fixpoint generation (k : nat) (l : list H) : list H :=
  match k with
  | O => l
  | S k' => generation k' (spawned l)
  end.

(** The generations 0 to [k - 1] of [l], one after the other. *)
Fixpoint generations (k : nat) (l : list H) : list H :=
  match k with
  | O => []
  | S k' => l ++ generations k' (spawned l)
  end.

End Generations.

End Event.
Arguments Event : clear implicits.
Arguments action : clear implicits.
End Events.

(** ** [interface TreeLike], [class TreeTraverser<T>] and its visitors *)

Module Tree.
Section Traversal.
(** [A]: what a node carries; it stands for the node's identity as an
    object, so that two nodes are the same object when they carry the
    same [A]. *)
Context {A : Type} `{EqDecision A}.

Local Unset Elimination Schemes.

(** [interface TreeLike { children?: TreeLike[] }] *)
Inductive tree : Type :=
| Node (label : A) (children : option (list tree)).

Definition label (t : tree) : A := match t with Node a _ => a end.
Definition children (t : tree) : option (list tree) :=
  match t with Node _ cs => cs end.

(** Induction over a node and all the nodes below it. *)
Fixpoint tree_ind (P : tree -> Prop)
    (Hleaf : forall a, P (Node a None))
    (Hnode : forall a cs, Forall P cs -> P (Node a (Some cs)))
    (t : tree) {struct t} : P t :=
  match t with
  | Node a None => Hleaf a
  | Node a (Some cs) =>
      Hnode a cs
        ((fix all (l : list tree) : Forall P l :=
            match l with
            | [] => @List.Forall_nil _ P
            | c :: l' => @List.Forall_cons _ P c _ (tree_ind P Hleaf Hnode c) (all l')
            end) cs)
  end.

(** [interface TreeVisitor<T>]: an object with state [V], an optional flag
    (absent reads as false) and two optional hooks.  A hook reads the node
    and the spine it is handed and updates the visitor. *)
Record TreeVisitor (V : Type) := mkVisitor {
  haltTraverse : V -> bool;
  preOrder : option (tree -> list tree -> V -> bool * V);
  postOrder : option (tree -> list tree -> V -> V)
}.
Arguments haltTraverse {V}.
Arguments preOrder {V}.
Arguments postOrder {V}.

Section Engine.
Context {V : Type} (visitor : TreeVisitor V).

(** The [for] loop over [treeNode.children] in [_traverse]: the flag in the
    result says whether the loop left through [return]. *)
Definition children_loop
    (traverse1 : tree -> V -> list tree -> V * list tree) :=
  fix loop (cs : list tree) (v : V) (spine : list tree)
      : bool * (V * list tree) :=
    match cs with
    | [] => (false, (v, spine))
    | c :: cs' =>
        let '(v', spine') := traverse1 c v spine in
        if haltTraverse visitor v' then (true, (v', spine'))
        else loop cs' v' spine'
    end.

(** [visitor.postOrder] when the visitor has one. *)
Definition run_postOrder (treeNode : tree) (v : V) (spine : list tree)
    : V * list tree :=
  match postOrder visitor with
  | Some post => (post treeNode spine v, spine)
  | None => (v, spine)
  end.

(** [_traverse(treeNode, visitor, spine)]: the visitor and the (mutated)
    spine array when it returns. *)
Fixpoint _traverse (treeNode : tree) (v : V) (spine : list tree)
    {struct treeNode} : V * list tree :=
  if haltTraverse visitor v then (v, spine)
  else
    let after_pre (descend : bool) (v : V) : V * list tree :=
      match treeNode with
      | Node _ (Some cs) =>
          if descend then
            match children_loop _traverse cs v (JsArray.push spine treeNode) with
            | (true, r) => r
            | (false, (v', spine')) =>
                run_postOrder treeNode v' (JsArray.pop spine')
            end
          else run_postOrder treeNode v spine
      | Node _ None => run_postOrder treeNode v spine
      end in
    match preOrder visitor with
    | Some pre =>
        let '(descend, v') := pre treeNode spine v in
        if haltTraverse visitor v' then (v', spine) else after_pre descend v'
    | None => after_pre true v
    end.

End Engine.

(** [class TreeTraverser<T>] *)
Record TreeTraverser := mkTraverser { spine : list tree }.

(** [get node()] *)
Definition node (tr : TreeTraverser) : option tree := last (spine tr).

(** [traverse(visitor)]: the visitor when the call returns.  With an empty
    spine [this.node] is [null]: [_traverse] returns at once for a visitor
    that has halted; for any other it hands [null] to [preOrder], when the
    visitor has one, and then reads [null.children].  The hooks here are
    given nodes, and that case is [None]. *)
Definition traverse {V} (visitor : TreeVisitor V) (v : V)
    (tr : TreeTraverser) : option V :=
  match node tr with
  | Some treeNode =>
      Some (fst (_traverse visitor treeNode v (JsArray.slice 0 None (spine tr))))
  | None => if haltTraverse visitor v then Some v else None
  end.

(** [class FindVisitor<T>]: its state is [_found], undefined until a node is
    found, and the field [haltTraverse], here [halt]. *)
Record FindState := mkFind { _found : option (list tree); halt : bool }.

Definition FindVisitor (predicate : tree -> bool) : TreeVisitor FindState :=
  {| haltTraverse := halt;
     preOrder := Some (fun node spine st =>
       if predicate node then
         (false, mkFind (Some (JsArray.push (JsArray.slice 0 None spine) node)) true)
       else (true, st));
     postOrder := None |}.

(** [new FindVisitor(predicate)] *)
Definition FindVisitor_new : FindState := mkFind None false.

(** [find(predicate)]: the node returned and the traverser afterwards. *)
Definition find (predicate : tree -> bool) (tr : TreeTraverser)
    : option (option tree * TreeTraverser) :=
  match traverse (FindVisitor predicate) FindVisitor_new tr with
  | Some st =>
      match _found st with
      | Some found => let tr' := mkTraverser found in Some (node tr', tr')
      | None => Some (None, tr)
      end
  | None => None
  end.

(** The objects that meet in [parent.children.indexOf(this)]: the elements
    of [children] are nodes, [this] is the traverser. *)
Inductive object :=
| ONode (t : tree)
| OTraverser (tr : TreeTraverser).

(** [===] on these objects: two nodes are the same object when they carry
    the same identity, a call involves one traverser only, and a node is
    never a traverser. *)
Definition strict_eq (x y : object) : bool :=
  match x, y with
  | ONode a, ONode b => bool_decide (label a = label b)
  | OTraverser _, OTraverser _ => true
  | _, _ => false
  end.

(** Results of the sibling moves: [TypeError] when [parent.children] is
    undefined.  The spine has a parent when its length is 2 or more, and the
    guards keep each index read in [children] within the array, so that the
    other [TypeError] branches below are never taken. *)
Inductive result (R : Type) :=
| Return (r : R)
| TypeError.
Arguments Return {R}.
Arguments TypeError {R}.

(** [prevSibling()] *)
Definition prevSibling (this : TreeTraverser)
    : result (option tree * TreeTraverser) :=
  if JsArray.len (spine this) <? 2 then Return (None, this)
  else
    match JsArray.at_ (spine this) (JsArray.len (spine this) - 2) with
    | Some (Node _ (Some parent_children)) =>
        let childIndex :=
          JsArray.indexOf (fun c => strict_eq (ONode c) (OTraverser this))
            parent_children in
        if 0 <? childIndex then
          match JsArray.at_ parent_children (childIndex - 1) with
          | Some sibling =>
              let this' :=
                mkTraverser (JsArray.push (JsArray.pop (spine this)) sibling) in
              Return (node this', this')
          | None => TypeError
          end
        else Return (None, this)
    | _ => TypeError
    end.

(** [nextSibling()] *)
Definition nextSibling (this : TreeTraverser)
    : result (option tree * TreeTraverser) :=
  if JsArray.len (spine this) <? 2 then Return (None, this)
  else
    match JsArray.at_ (spine this) (JsArray.len (spine this) - 2) with
    | Some (Node _ (Some parent_children)) =>
        let childIndex :=
          JsArray.indexOf (fun c => strict_eq (ONode c) (OTraverser this))
            parent_children in
        if childIndex <? JsArray.len parent_children - 1 then
          match JsArray.at_ parent_children (childIndex + 1) with
          | Some sibling =>
              let this' :=
                mkTraverser (JsArray.push (JsArray.pop (spine this)) sibling) in
              Return (node this', this')
          | None => TypeError
          end
        else Return (None, this)
    | _ => TypeError
    end.

End Traversal.
Arguments haltTraverse {A V}.
Arguments preOrder {A V}.
Arguments postOrder {A V}.
Arguments mkVisitor {A V}.
Arguments Return {R}.
Arguments TypeError {R}.
Arguments tree : clear implicits.
Arguments TreeTraverser : clear implicits.
Arguments TreeVisitor : clear implicits.
Arguments FindState : clear implicits.
Arguments object : clear implicits.
End Tree.

(** ** [class Debounce<T>] and the host's timers *)

(** Time is counted in whole milliseconds.  The host is the JavaScript event
    loop: a timer set by [setTimeout] is a one-shot entry that the loop
    fires, between two calls from outside, once the clock has reached its
    due time; a callback runs to its end before anything else does. *)

Module Debouncer.

(** JavaScript's [ToBoolean]: whether a value passes a test [if (value)]. *)
Class ToBoolean (T : Type) := truthy : T -> bool.

(** Numbers: zero does not pass. *)
#[export] Instance Z_ToBoolean : ToBoolean Z := fun n => negb (n =? 0).
#[export] Instance nat_ToBoolean : ToBoolean nat := fun n => negb (Nat.eqb n 0).

(** The longest delay that the host's timers keep: they hold it as a signed
    32-bit number of milliseconds. *)
Definition TIMEOUT_MAX : Z := 2147483647.

Section Debounce.
(** [T]: the debounced event. *)
Context {T : Type}.

(** A pending [setTimeout(later, delay)]: its id, the time it is due and the
    [event] its [later] closure captured. *)
Record timer := mkTimer { timer_id : Z; due : Z; captured : T }.

(** The fields of a [Debounce].  [_handler] is the function the debouncer
    wraps; its invocations are recorded in the world below.  [wait] is not a
    member of the class: it is the own property an assignment
    [debounce.wait = value] creates on the object. *)
Record Debounce := mkDebounce {
  _lastEvent : option T;
  _timer : option Z;
  _wait : Z;
  wait : option Z
}.

(** [new Debounce(handler, wait)] *)
Definition constructor (wait : Z) : Debounce :=
  {| _lastEvent := None; _timer := None; _wait := wait; wait := None |}.

(** [debounce.wait = value] *)
Definition assign_wait (value : Z) (d : Debounce) : Debounce :=
  {| _lastEvent := _lastEvent d; _timer := _timer d; _wait := _wait d;
     wait := Some value |}.

(** The single-threaded host: its clock in milliseconds, its pending timers,
    the debouncer, and the invocations [handler(event)] so far with the time
    of each. *)
Record world := mkWorld {
  now : Z;
  next_id : Z;
  pending : list timer;
  debounce : Debounce;
  handled : list (Z * T)
}.

(** The host at time [t0], with the debouncer [d] and no timer set. *)
Definition boot (t0 : Z) (d : Debounce) : world :=
  {| now := t0; next_id := 1; pending := []; debounce := d; handled := [] |}.

(** The delay that the host gives a timer asked for with [delay]: a delay
    above [TIMEOUT_MAX] does not fit and is not kept, Node.js sets the timer
    to one millisecond instead; with a delay below one millisecond the
    timer is due at once. *)
Definition timer_delay (delay : Z) : Z :=
  if TIMEOUT_MAX <? delay then 1 else Z.max 0 delay.

(** [setTimeout(later, delay)]: the callback runs once, when the delay that
    the host gives the timer has passed, unless cleared before. *)
Definition setTimeout (event : T) (delay : Z) (w : world) : world * Z :=
  ({| now := now w; next_id := next_id w + 1;
      pending :=
        pending w ++ [mkTimer (next_id w) (now w + timer_delay delay) event];
      debounce := debounce w; handled := handled w |}, next_id w).

(** [clearTimeout(id)]; nothing happens for [undefined] or [null]. *)
Definition clearTimeout (id : option Z) (w : world) : world :=
  match id with
  | Some i =>
      {| now := now w; next_id := next_id w;
         pending := filter (fun tm => timer_id tm <> i) (pending w);
         debounce := debounce w; handled := handled w |}
  | None => w
  end.

(** The world after an assignment to fields of the debouncer. *)
Definition with_debounce (d : Debounce) (w : world) : world :=
  {| now := now w; next_id := next_id w; pending := pending w;
     debounce := d; handled := handled w |}.

(** [clear] *)
Definition clear (w : world) : world :=
  let w1 := clearTimeout (_timer (debounce w)) w in
  let d := debounce w1 in
  with_debounce
    {| _lastEvent := None; _timer := None; _wait := _wait d; wait := wait d |} w1.

(** [handle(event)] *)
Definition handle (event : T) (w : world) : world :=
  let w1 := clear w in
  let d1 := debounce w1 in
  let w2 :=
    with_debounce
      {| _lastEvent := Some event; _timer := _timer d1; _wait := _wait d1;
         wait := wait d1 |} w1 in
  let '(w3, id) := setTimeout event (_wait (debounce w2)) w2 in
  let d3 := debounce w3 in
  with_debounce
    {| _lastEvent := _lastEvent d3; _timer := Some id; _wait := _wait d3;
       wait := wait d3 |} w3.

(** The closure [later] of [handle]: [handler.apply(that, [event]); clear()]. *)
Definition later (event : T) (w : world) : world :=
  clear {| now := now w; next_id := next_id w; pending := pending w;
           debounce := debounce w;
           handled := handled w ++ [(now w, event)] |}.

(** [flush()]: [if (!this._timer)] lets a timer id other than 0 through,
    [if (event)] an event that [ToBoolean] takes for true. *)
Definition flush `{ToBoolean T} (w : world) : world :=
  match _timer (debounce w) with
  | None => w
  | Some id =>
      if id =? 0 then w
      else
        let event := _lastEvent (debounce w) in
        let w1 := clear w in
        match event with
        | Some e =>
            if truthy e then
              {| now := now w1; next_id := next_id w1; pending := pending w1;
                 debounce := debounce w1;
                 handled := handled w1 ++ [(now w1, e)] |}
            else w1
        | None => w1
        end
  end.

(** The pending timer that is due first (the older one on a tie). *)
Fixpoint earliest (l : list timer) : option timer :=
  match l with
  | [] => None
  | tm :: l' =>
      match earliest l' with
      | Some tm' => if due tm' <? due tm then Some tm' else Some tm
      | None => Some tm
      end
  end.

(** The host fires one timer: the clock stands at its due time, the timer
    leaves the pending list and its callback runs. *)
Definition fire (tm : timer) (w : world) : world :=
  later (captured tm)
    {| now := Z.max (now w) (due tm); next_id := next_id w;
       pending := filter (fun x => timer_id x <> timer_id tm) (pending w);
       debounce := debounce w; handled := handled w |}.

(** The event loop up to time [t]: every timer due by then fires, in due
    order.  A callback here never sets a timer, so the number of pending
    timers bounds the number of rounds. *)
Fixpoint run_due (rounds : nat) (t : Z) (w : world) : world :=
  match rounds with
  | O => w
  | S rounds' =>
      match earliest (pending w) with
      | Some tm => if due tm <=? t then run_due rounds' t (fire tm w) else w
      | None => w
      end
  end.

(** The world when the clock reaches [t]. *)
Definition run_until (t : Z) (w : world) : world :=
  let w' := run_due (length (pending w)) t w in
  {| now := Z.max (now w') t; next_id := next_id w'; pending := pending w';
     debounce := debounce w'; handled := handled w' |}.

(** A sequence of calls [handle(e1), ..., handle(en)], each given with the
    time elapsed since the call before it. *)
Fixpoint session (calls : list (Z * T)) (w : world) : world :=
  match calls with
  | [] => w
  | (gap, e) :: calls' => session calls' (handle e (run_until (now w + gap) w))
  end.

(** The time the calls of a sequence take in all, and the event of the last
    call of the sequence [first :: rest]. *)
Definition elapsed (calls : list (Z * T)) : Z := foldr Z.add 0 (map fst calls).

Definition last_event (first : Z * T) (rest : list (Z * T)) : T :=
  snd (List.last rest first).

(** A debouncer with a call pending: one timer, set for [event] and due at
    [at_time], and the debouncer holds its id. *)
Definition armed (wait_ms : Z) (event : T) (at_time : Z) (log : list (Z * T))
    (w : world) : Prop :=
  exists id,
    pending w = [mkTimer id at_time event] /\
    _timer (debounce w) = Some id /\
    _wait (debounce w) = wait_ms /\
    handled w = log.

End Debounce.
Arguments Debounce : clear implicits.
Arguments world : clear implicits.
Arguments timer : clear implicits.
End Debouncer.

(** ** Plain objects used as maps *)

(** An object made by [{}] and then read and assigned under computed keys,
    as [this._diagnosticsMap] is.  The properties it owns hold arrays of
    [D], and each [D] is an object without a property [length].  What the
    object does not own it inherits: from [Object.prototype], or, after an
    assignment under the key [__proto__], which runs the setter that
    [Object.prototype] has under that name, from the array assigned and
    then from [Array.prototype] and [Object.prototype]. *)

Module JsObject.

(** The functions that [Object.prototype] and [Array.prototype] hold under
    string keys (ECMAScript 2023), each with the value of its property
    [length]. *)
Definition Object_prototype : list (string * nat) :=
  [("constructor", 1); ("__defineGetter__", 2); ("__defineSetter__", 2);
   ("hasOwnProperty", 1); ("__lookupGetter__", 1); ("__lookupSetter__", 1);
   ("isPrototypeOf", 1); ("propertyIsEnumerable", 1); ("toString", 0);
   ("valueOf", 0); ("toLocaleString", 0)]%nat.

Definition Array_prototype : list (string * nat) :=
  [("constructor", 1); ("at", 1); ("concat", 1); ("copyWithin", 2);
   ("fill", 1); ("find", 1); ("findIndex", 1); ("findLast", 1);
   ("findLastIndex", 1); ("lastIndexOf", 1); ("pop", 0); ("push", 1);
   ("reverse", 0); ("shift", 0); ("unshift", 1); ("slice", 2); ("sort", 1);
   ("splice", 2); ("includes", 1); ("indexOf", 1); ("join", 1); ("keys", 0);
   ("entries", 0); ("values", 0); ("forEach", 1); ("filter", 1); ("flat", 0);
   ("flatMap", 1); ("map", 1); ("every", 1); ("some", 1); ("reduce", 1);
   ("reduceRight", 1); ("toLocaleString", 0); ("toString", 0);
   ("toReversed", 0); ("toSorted", 1); ("toSpliced", 2); ("with", 2)]%nat.

Fixpoint member (key : string) (table : list (string * nat)) : option nat :=
  match table with
  | [] => None
  | (name, length) :: table' =>
      if String.eqb key name then Some length else member key table'
  end.

Section Object.
Context {D : Type}.

(** The own properties, and the array that an assignment under [__proto__]
    made the prototype, if any. *)
Record object := mkObject {
  own : gmap string (list D);
  prototype : option (list D)
}.

(** [{}] *)
Definition empty : object := mkObject ∅ None.

(** What a read [object[key]] gives. *)
Inductive value :=
| VUndefined
| VArray (items : list D)
| VFunction (length : nat)
| VNumber (n : Z)
| VObject.

(** [key] is the index of an element of [items], written as a property key. *)
Definition is_index (key : string) (items : list D) : bool :=
  existsb (fun i : nat => String.eqb key (pretty i)) (seq 0 (length items)).

Definition inherited_function (key : string) (tables : list (list (string * nat)))
    : value :=
  match omap (member key) tables with
  | length :: _ => VFunction length
  | [] => VUndefined
  end.

(** [object[key]]: an own property; the prototype itself under [__proto__];
    else what the prototype chain has under [key]. *)
Definition get (key : string) (o : object) : value :=
  if String.eqb key "__proto__" then
    match prototype o with
    | Some items => VArray items
    | None => VObject
    end
  else
    match own o !! key with
    | Some items => VArray items
    | None =>
        match prototype o with
        | Some items =>
            if String.eqb key "length" then VNumber (JsArray.len items)
            else if is_index key items then VObject
            else inherited_function key [Array_prototype; Object_prototype]
        | None => inherited_function key [Object_prototype]
        end
    end.

(** [object[key] = items]: every property inherited is writable, so that the
    assignment makes or updates an own property, but for [__proto__], whose
    setter changes the prototype. *)
Definition set (key : string) (items : list D) (o : object) : object :=
  if String.eqb key "__proto__" then mkObject (own o) (Some items)
  else mkObject (<[key := items]> (own o)) (prototype o).

(** [Array.prototype.push.apply(array, argArray)]: the array afterwards,
    where [None] is [undefined]; no result when it throws a [TypeError].
    Without an [argArray] nothing is pushed; a number is not array-like;
    of an object, [length] elements are read, which a function has none
    of. *)
Definition push_apply (array : list (option D)) (argArray : value)
    : option (list (option D)) :=
  match argArray with
  | VUndefined => Some array
  | VArray items => Some (array ++ (Some <$> items))
  | VFunction length => Some (array ++ replicate length None)
  | VNumber _ => None
  | VObject => Some array
  end.

End Object.
Arguments object : clear implicits.
Arguments value : clear implicits.
End JsObject.

(** ** [class DiagnosticsProvider] and [class ErrorVisitor] *)

Module Diagnostics.

(** The parse tree the provider reads (php7parser): a token, a parse error
    and what a node (phrase or token) carries. *)
Record Token := mkToken { tokenType : Z; offset : Z; token_length : Z }.
Record ParseError := mkParseError { unexpected : Token }.

(** Modelled from the spec: [ParsedDocument.isPhrase] is not in the sources;
    a node is a phrase or a token, and only a phrase has parse errors
    attached.  [node_id] is the identity of the node object. *)
Record PhpNode := mkPhpNode {
  node_id : Z;
  isPhrase : bool;
  errors : option (list ParseError)
}.

(** The handlers subscribed to a document's change event: the closure
    [(x) => dd.handle(x)] that [add] creates for the document with the given
    URI, or a handler of somebody else. *)
Inductive handler :=
| DebounceHandle (uri : string)
| External (id : Z).

(** What the provider uses of a [ParsedDocument]. *)
Record ParsedDocument := mkDoc {
  uri : string;
  root : Tree.tree PhpNode;
  changeEvent : Events.Event handler
}.

Record ParsedDocumentChangeEventArgs := mkArgs { parsedDocument : ParsedDocument }.

(** [lsp.Diagnostic] *)
Record Diagnostic (Range : Type) := mkDiagnostic {
  range : Range;
  severity : Z;
  source : string;
  message : string
}.
Arguments mkDiagnostic {Range}.

(** [diagnostics] is what [_diagnose] returns: an array whose elements are
    diagnostics or [undefined]. *)
Record PublishDiagnosticsEventArgs (Range : Type) := mkPublish {
  publish_uri : string;
  diagnostics : list (option (Diagnostic Range))
}.
Arguments mkPublish {Range}.
Arguments publish_uri {Range}.
Arguments diagnostics {Range}.

(** The calls [this._startDiagnostics.trigger(uri)] and
    [this._publish.trigger(args)], in the order they are made. *)
Inductive emission (Range : Type) :=
| StartDiagnostics (uri : string)
| Publish (args : PublishDiagnosticsEventArgs Range).
Arguments StartDiagnostics {Range}.
Arguments Publish {Range}.

(** The fields of the provider.  [_maxItems] is declared by the class and
    assigned nowhere, [maxItems] is the public field the constructor sets.
    The events [_startDiagnostics] and [_publish] are told by the emissions
    above: what matters of them here is what they are triggered with.
    [_debounceMap] and [_unsubscribeMap] are read under the URI of a
    document that [add] has put there, an own key (the URI [__proto__]
    aside); [_diagnosticsMap] is read under the URI of every registered
    document, diagnosed before or not, and shows what a plain object
    inherits. *)
Record DiagnosticsProvider (Range : Type) := mkProvider {
  maxItems : Z;
  _docs : list ParsedDocument;
  _debounceWaitTime : Z;
  _debounceMap : gmap string (Debouncer.Debounce ParsedDocumentChangeEventArgs);
  _unsubscribeMap : gmap string Events.Unsubscribe;
  _diagnosticsMap : JsObject.object (Diagnostic Range);
  _maxItems : option Z
}.
Arguments mkProvider {Range}.
Arguments maxItems {Range}.
Arguments _docs {Range}.
Arguments _debounceWaitTime {Range}.
Arguments _debounceMap {Range}.
Arguments _unsubscribeMap {Range}.
Arguments _diagnosticsMap {Range}.
Arguments _maxItems {Range}.

(** What a method call leaves: the value returned or the exception thrown. *)
Inductive completion (R : Type) :=
| Returns (r : R)
| Throws (error : string).
Arguments Returns {R}.
Arguments Throws {R}.

(** [class ErrorVisitor]: its state is [_errors]. *)
Definition ErrorVisitor : Tree.TreeVisitor PhpNode (list ParseError) :=
  {| Tree.haltTraverse := fun _ => false;
     Tree.preOrder := Some (fun node spine _errors =>
       match isPhrase (Tree.label node), errors (Tree.label node) with
       | true, Some node_errors => (true, _errors ++ node_errors)
       | _, _ => (true, _errors)
       end);
     Tree.postOrder := None |}.

(** Modelled from the spec: [ParsedDocument.traverse] is not in the sources;
    it walks the document tree from its root with the given visitor. *)
Definition doc_traverse {V} (visitor : Tree.TreeVisitor PhpNode V) (v : V)
    (doc : ParsedDocument) : option V :=
  Tree.traverse visitor v (Tree.mkTraverser [root doc]).

Section Provider.
(** [ParsedDocument.tokenRange] and php7parser's [tokenTypeToString] are not
    in the sources; the provider is read for any two such functions. *)
Context {Range : Type}.
Variable tokenRange : ParsedDocument -> Token -> Range.
Variable tokenTypeToString : Z -> string.

Let Provider : Type := DiagnosticsProvider Range.

(** [constructor()] *)
Definition constructor : Provider :=
  {| maxItems := 100; _docs := []; _debounceWaitTime := 1000;
     _debounceMap := ∅; _unsubscribeMap := ∅;
     _diagnosticsMap := JsObject.empty;
     _maxItems := None |}.

(** The provider after [this._docs] is assigned or mutated. *)
Definition with_docs (docs : list ParsedDocument) (p : Provider) : Provider :=
  {| maxItems := maxItems p; _docs := docs;
     _debounceWaitTime := _debounceWaitTime p; _debounceMap := _debounceMap p;
     _unsubscribeMap := _unsubscribeMap p; _diagnosticsMap := _diagnosticsMap p;
     _maxItems := _maxItems p |}.

(** The [while ((doc = this._docs.shift()))] loop of [_find]. *)
Fixpoint _find_loop (target : string) (docs shifted : list ParsedDocument)
    (found : option ParsedDocument)
    : list ParsedDocument * option ParsedDocument :=
  match docs with
  | [] => (shifted, found)
  | doc :: docs' =>
      if String.eqb (uri doc) target
      then _find_loop target docs' shifted (Some doc)
      else _find_loop target docs' (JsArray.push shifted doc) found
  end.

(** [_find(uri)] *)
Definition _find (target : string) (p : Provider)
    : option ParsedDocument * Provider :=
  let '(shifted, found) := _find_loop target (_docs p) [] None in
  match found with
  | Some doc => (found, with_docs (doc :: shifted) p)
  | None => (found, with_docs shifted p)
  end.

(** [has(uri)] *)
Definition has (target : string) (p : Provider) : bool * Provider :=
  let '(found, p') := _find target p in (bool_decide (is_Some found), p').

(** [add(doc)]: with the provider, the document object after the call. *)
Definition add (doc : ParsedDocument) (p : Provider)
    : completion ParsedDocument * Provider :=
  let '(present, p1) := has (uri doc) p in
  if present then (Throws "Duplicate Key", p1)
  else
    let dd := Debouncer.constructor (_debounceWaitTime p1) in
    let '(event', unsubscribe) :=
      Events.subscribe (DebounceHandle (uri doc)) (changeEvent doc) in
    let doc' := mkDoc (uri doc) (root doc) event' in
    (Returns doc',
     {| maxItems := maxItems p1; _docs := doc' :: _docs p1;
        _debounceWaitTime := _debounceWaitTime p1;
        _debounceMap := <[uri doc := dd]> (_debounceMap p1);
        _unsubscribeMap := <[uri doc := unsubscribe]> (_unsubscribeMap p1);
        _diagnosticsMap := _diagnosticsMap p1;
        _maxItems := _maxItems p1 |}).

(** [remove(uri)]: with the provider, the document that left it, after its
    handler was unsubscribed.  [this._unsubscribeMap[uri]()] and
    [debounce.clear()] throw when the map has no entry.  The pending timer
    that [debounce.clear()] cancels belongs to the host and is not part of
    the provider. *)
Definition remove (target : string) (p : Provider)
    : completion (option ParsedDocument) * Provider :=
  let '(present, p1) := has target p in
  if negb present then (Returns None, p1)
  else
    match _unsubscribeMap p1 !! target with
    | None => (Throws "TypeError", p1)
    | Some unsubscribe =>
        let left :=
          match _docs p1 with
          | doc :: _ =>
              Some (mkDoc (uri doc) (root doc)
                      (Events.unsubscribe unsubscribe (changeEvent doc)))
          | [] => None
          end in
        let p2 :=
          {| maxItems := maxItems p1; _docs := tail (_docs p1);
             _debounceWaitTime := _debounceWaitTime p1;
             _debounceMap := _debounceMap p1;
             _unsubscribeMap := delete target (_unsubscribeMap p1);
             _diagnosticsMap := _diagnosticsMap p1;
             _maxItems := _maxItems p1 |} in
        match _debounceMap p2 !! target with
        | None => (Throws "TypeError", p2)
        | Some _ =>
            (Returns left,
             {| maxItems := maxItems p2; _docs := _docs p2;
                _debounceWaitTime := _debounceWaitTime p2;
                _debounceMap := delete target (_debounceMap p2);
                _unsubscribeMap := _unsubscribeMap p2;
                _diagnosticsMap := _diagnosticsMap p2;
                _maxItems := _maxItems p2 |})
        end
    end.

(** [set debounceWait(value)] *)
Definition set_debounceWait (value : Z) (p : Provider) : Provider :=
  {| maxItems := maxItems p; _docs := _docs p;
     _debounceWaitTime := value;
     _debounceMap := Debouncer.assign_wait value <$> _debounceMap p;
     _unsubscribeMap := _unsubscribeMap p; _diagnosticsMap := _diagnosticsMap p;
     _maxItems := _maxItems p |}.

(** [_parseErrorToDiagnostic(err, doc)] *)
Definition _parseErrorToDiagnostic (err : ParseError) (doc : ParsedDocument)
    : Diagnostic Range :=
  {| range := tokenRange doc (unexpected err);
     severity := 1;
     source := "intelephense";
     message := "Unexpected " +:+ tokenTypeToString (tokenType (unexpected err)) |}.

(** The second [for] loop of [_diagnose], over [this._docs]:
    [Array.prototype.push.apply(diagnostics, this._diagnosticsMap[uri])] for
    the URI of each document; no result when a call throws. *)
Fixpoint _diagnose_loop (diagnosticsMap : JsObject.object (Diagnostic Range))
    (docs : list ParsedDocument) (diagnostics : list (option (Diagnostic Range)))
    : option (list (option (Diagnostic Range))) :=
  match docs with
  | [] => Some diagnostics
  | doc :: docs' =>
      match JsObject.push_apply diagnostics
              (JsObject.get (uri doc) diagnosticsMap) with
      | Some diagnostics' => _diagnose_loop diagnosticsMap docs' diagnostics'
      | None => None
      end
  end.

(** [_diagnose(uri)] *)
Definition _diagnose (target : string) (p : Provider)
    : completion (list (option (Diagnostic Range))) * Provider :=
  let '(found, p1) := _find target p in
  match found with
  | None => (Throws "TypeError", p1)
  | Some doc =>
      match doc_traverse ErrorVisitor [] doc with
      | None => (Throws "TypeError", p1)
      | Some parseErrors =>
          let diagnostics :=
            map (fun err => _parseErrorToDiagnostic err doc) parseErrors in
          let p2 :=
            {| maxItems := maxItems p1; _docs := _docs p1;
               _debounceWaitTime := _debounceWaitTime p1;
               _debounceMap := _debounceMap p1;
               _unsubscribeMap := _unsubscribeMap p1;
               _diagnosticsMap :=
                 JsObject.set target diagnostics (_diagnosticsMap p1);
               _maxItems := _maxItems p1 |} in
          match _diagnose_loop (_diagnosticsMap p2) (_docs p2) [] with
          | Some diagnostics =>
              (Returns (JsArray.slice 0 (_maxItems p2) diagnostics), p2)
          | None => (Throws "TypeError", p2)
          end
      end
  end.

(** [_onParsedDocumentChanged(args)]: when it returns, the [trigger] calls it
    made, in order. *)
Definition _onParsedDocumentChanged (args : ParsedDocumentChangeEventArgs)
    (p : Provider) : completion (list (emission Range)) * Provider :=
  let target := uri (parsedDocument args) in
  let started := StartDiagnostics target in
  match _diagnose target p with
  | (Returns diagnostics, p') =>
      (Returns [started; Publish (mkPublish target diagnostics)], p')
  | (Throws e, p') => (Throws e, p')
  end.

(** The calls a client makes on a provider, and the provider after a
    sequence of them from [new DiagnosticsProvider()]. *)
Inductive call :=
| CallAdd (doc : ParsedDocument)
| CallRemove (target : string)
| CallHas (target : string)
| CallSetDebounceWait (value : Z)
| CallSetMaxItems (value : Z)
| DocumentChanged (args : ParsedDocumentChangeEventArgs).

Definition step (p : Provider) (c : call) : Provider :=
  match c with
  | CallAdd doc => snd (add doc p)
  | CallRemove target => snd (remove target p)
  | CallHas target => snd (has target p)
  | CallSetDebounceWait value => set_debounceWait value p
  | CallSetMaxItems value =>
      {| maxItems := value; _docs := _docs p;
         _debounceWaitTime := _debounceWaitTime p;
         _debounceMap := _debounceMap p; _unsubscribeMap := _unsubscribeMap p;
         _diagnosticsMap := _diagnosticsMap p; _maxItems := _maxItems p |}
  | DocumentChanged args => snd (_onParsedDocumentChanged args p)
  end.

Definition after (calls : list call) : Provider := fold_left step calls constructor.

Definition registered (target : string) (p : Provider) : Prop :=
  exists doc, In doc (_docs p) /\ uri doc = target.

End Provider.

(** [_find] read as a move to the front: the documents with another URI, in
    their order, and the last document with the URI looked for. *)
Definition others (target : string) (docs : list ParsedDocument)
    : list ParsedDocument :=
  List.filter (fun d => negb (String.eqb (uri d) target)) docs.

Definition last_with (target : string) (docs : list ParsedDocument)
    (found : option ParsedDocument) : option ParsedDocument :=
  fold_left (fun acc d => if String.eqb (uri d) target then Some d else acc)
    docs found.

End Diagnostics.

(** ** Observing a traversal *)

Module Observed.
Import Tree.
Section Observed.
Context {A V : Type}.

Inductive hook := PreOrderHook | PostOrderHook.

(** One invocation of a hook: the node and the spine it was handed, and the
    visitor before and after it. *)
Record invocation := mkInvocation {
  inv_hook : hook;
  inv_node : tree A;
  inv_spine : list (tree A);
  inv_before : V;
  inv_after : V
}.

(** A visitor that behaves as [visitor] does and keeps, beside the state of
    [visitor], the list of the hook invocations made on it. *)
Definition recording (visitor : TreeVisitor A V)
    : TreeVisitor A (V * list invocation) :=
  {| haltTraverse := fun s => haltTraverse visitor (fst s);
     preOrder :=
       match preOrder visitor with
       | Some pre =>
           Some (fun node spine s =>
             let '(descend, v') := pre node spine (fst s) in
             (descend,
              (v', snd s ++ [mkInvocation PreOrderHook node spine (fst s) v'])))
       | None => None
       end;
     postOrder :=
       match postOrder visitor with
       | Some post =>
           Some (fun node spine s =>
             let v' := post node spine (fst s) in
             (v', snd s ++ [mkInvocation PostOrderHook node spine (fst s) v']))
       | None => None
       end |}.

(** The hook invocations of [_traverse(treeNode, visitor, spine)]. *)
Definition invocations (visitor : TreeVisitor A V) (treeNode : tree A) (v : V)
    (spine : list (tree A)) : list invocation :=
  snd (fst (_traverse (recording visitor) treeNode (v, []) spine)).

(** The hook invocations of [traverse(visitor)]. *)
Definition traverse_invocations (visitor : TreeVisitor A V) (v : V)
    (tr : TreeTraverser A) : option (list invocation) :=
  option_map snd (traverse (recording visitor) (v, []) tr).

(** Consecutive invocations: each starts from the visitor the one before it
    left, and none starts from a halted visitor. *)
Inductive chain (halted : V -> bool) : V -> list invocation -> V -> Prop :=
| chain_nil v : chain halted v [] v
| chain_cons v i l v' :
    inv_before i = v -> halted v = false ->
    chain halted (inv_after i) l v' -> chain halted v (i :: l) v'.

(** The part of [_traverse] that follows the [preOrder] hook. *)
Definition after_preOrder (visitor : TreeVisitor A V) (treeNode : tree A)
    (descend : bool) (v : V) (spine : list (tree A)) : V * list (tree A) :=
  match children treeNode with
  | Some cs =>
      if descend then
        match children_loop visitor (_traverse visitor) cs v
                (JsArray.push spine treeNode) with
        | (true, r) => r
        | (false, (v', spine')) =>
            run_postOrder visitor treeNode v' (JsArray.pop spine')
        end
      else run_postOrder visitor treeNode v spine
  | None => run_postOrder visitor treeNode v spine
  end.

(** Every node at or below [t], each with its ancestors from the root down,
    when [above] are the ancestors of [t]. *)
Fixpoint nodes_with_ancestors (above : list (tree A)) (t : tree A)
    {struct t} : list (tree A * list (tree A)) :=
  (t, above) ::
  match t with
  | Node _ (Some cs) => flat_map (nodes_with_ancestors (above ++ [t])) cs
  | Node _ None => []
  end.

(** The ancestors of the node a traverser stands on: its spine without the
    node itself. *)
Definition ancestors (tr : TreeTraverser A) : list (tree A) :=
  removelast (spine tr).

(** The first result that [f] gives along a list. *)
Definition first_some {X} (f : tree A -> option X) :=
  fix first_of (l : list (tree A)) : option X :=
    match l with
    | [] => None
    | c :: l' =>
        match f c with
        | Some x => Some x
        | None => first_of l'
        end
    end.

(** The first node at or below [t], in depth-first preorder, that satisfies
    [predicate], as the path that leads to it: [above], the ancestors of
    [t], followed by the nodes from [t] down to the match. *)
Fixpoint first_match (predicate : tree A -> bool) (above : list (tree A))
    (t : tree A) {struct t} : option (list (tree A)) :=
  if predicate t then Some (above ++ [t])
  else
    match t with
    | Node _ (Some cs) => first_some (first_match predicate (above ++ [t])) cs
    | Node _ None => None
    end.

(** An invocation that is a call of a hook the visitor has: what it leaves
    is what that hook returns on the node, the spine and the visitor it was
    given. *)
Definition genuine (visitor : TreeVisitor A V) (i : invocation) : Prop :=
  match inv_hook i with
  | PreOrderHook =>
      exists pre, preOrder visitor = Some pre /\
        inv_after i = snd (pre (inv_node i) (inv_spine i) (inv_before i))
  | PostOrderHook =>
      exists post, postOrder visitor = Some post /\
        inv_after i = post (inv_node i) (inv_spine i) (inv_before i)
  end.

(** How a traversal with the recording visitor relates to the same traversal
    with the visitor itself: same visitor, same spine, and the invocations
    [new] added to the record are chained, are calls of the visitor's hooks
    and lie in [scope]. *)
Definition follows (visitor : TreeVisitor A V) (v : V) (log0 : list invocation)
    (scope : list (tree A * list (tree A)))
    (plain : V * list (tree A))
    (recorded : (V * list invocation) * list (tree A)) : Prop :=
  exists new,
    recorded = ((fst plain, log0 ++ new), snd plain) /\
    chain (haltTraverse visitor) v new (fst plain) /\
    Forall (fun i => In (inv_node i, inv_spine i) scope /\ genuine visitor i) new.

End Observed.
Arguments invocation : clear implicits.
End Observed.

(** ** Sample objects and readings *)

Module Samples.

(** A handler (number 0) that subscribes handler 1 when it is called. *)
Definition subscribing_body (h : nat) (_ : unit) : list (Events.action nat) :=
  match h with
  | O => [Events.Subscribe 1%nat]
  | _ => []
  end.

(** Handlers in a chain: when called, handler 0 subscribes handlers 1 and 2,
    handler 1 subscribes handler 3, handler 3 subscribes handler 4; the
    other handlers subscribe nothing. *)
Definition chain_body (h : nat) (_ : unit) : list (Events.action nat) :=
  match h with
  | 0%nat => [Events.Subscribe 1%nat; Events.Subscribe 2%nat]
  | 1%nat => [Events.Subscribe 3%nat]
  | 3%nat => [Events.Subscribe 4%nat]
  | _ => []
  end.

(** A tree of four nodes, named by numbers: node 0 has the children 1 and 2,
    node 1 has the child 3. *)
Definition node3 : Tree.tree nat := Tree.Node 3%nat None.
Definition node2 : Tree.tree nat := Tree.Node 2%nat None.
Definition node1 : Tree.tree nat := Tree.Node 1%nat (Some [node3]).
Definition node0 : Tree.tree nat := Tree.Node 0%nat (Some [node1; node2]).

(** A visitor with both hooks that always descends and never halts. *)
Definition idle_visitor : Tree.TreeVisitor nat unit :=
  {| Tree.haltTraverse := fun _ => false;
     Tree.preOrder := Some (fun _ _ v => (true, v));
     Tree.postOrder := Some (fun _ _ v => v) |}.

(** A visitor that counts the nodes it enters and halts at the given count. *)
Definition halting_visitor (limit : nat) : Tree.TreeVisitor nat nat :=
  {| Tree.haltTraverse := fun count => Nat.leb limit count;
     Tree.preOrder := Some (fun _ _ count => (true, S count));
     Tree.postOrder := Some (fun _ _ count => count) |}.

(** What is shown of an invocation: the hook, the node and the spine, nodes
    by their numbers. *)
Definition shown {V} (i : Observed.invocation nat V)
    : Observed.hook * nat * list nat :=
  (Observed.inv_hook i, Tree.label (Observed.inv_node i),
   map Tree.label (Observed.inv_spine i)).

(** A document whose root phrase has 101 parse errors attached. *)
Definition sample_error : Diagnostics.ParseError :=
  Diagnostics.mkParseError (Diagnostics.mkToken 0 0 1).

Definition sample_root : Tree.tree Diagnostics.PhpNode :=
  Tree.Node (Diagnostics.mkPhpNode 0 true (Some (repeat sample_error 101)))
    (Some []).

Definition sample_doc : Diagnostics.ParsedDocument :=
  Diagnostics.mkDoc "file:///a.php" sample_root Events.constructor.

(** The reading of "only handlers subscribed before the trigger began are
    invoked by it": whatever a [trigger] call invokes was in the list when
    the call began. *)
Definition invokes_only_prior_handlers {H T} (body : H -> T -> list (Events.action H))
    (fuel : nat) (args : T) (ev : Events.Event H) : Prop :=
  forall ev' calls,
    Events.trigger body fuel args ev = Some (ev', calls) ->
    forall h, In h (map fst calls) -> In h (Events._subscribed ev).

End Samples.

(** ** Further visitors and methods of [TreeTraverser] *)

Module Visitors.
Import Tree.
Section Visitors.
Context {A : Type}.

(** [class FilterVisitor<T>]: its state is [_array]; it has no
    [haltTraverse] and no [postOrder]. *)
Definition FilterVisitor (predicate : tree A -> bool)
    : TreeVisitor A (list (tree A)) :=
  {| haltTraverse := fun _ => false;
     preOrder := Some (fun node spine _array =>
       (true, if predicate node then JsArray.push _array node else _array));
     postOrder := None |}.

(** [filter(predicate)]: [visitor.array] after the traversal. *)
Definition filter (predicate : tree A -> bool) (tr : TreeTraverser A)
    : option (list (tree A)) :=
  traverse (FilterVisitor predicate) [] tr.

(** [class ToArrayVisitor<T>]: its state is [_array]. *)
Definition ToArrayVisitor : TreeVisitor A (list (tree A)) :=
  {| haltTraverse := fun _ => false;
     preOrder := Some (fun t spine _array => (true, JsArray.push _array t));
     postOrder := None |}.

(** [class CountVisitor<T>]: its state is [_count]. *)
Definition CountVisitor : TreeVisitor A Z :=
  {| haltTraverse := fun _ => false;
     preOrder := Some (fun t spine _count => (true, _count + 1));
     postOrder := None |}.

(** The loop of [ancestor]: [n] runs down from [spine.length - 2] to 0, so
    that the length of the spine bounds the number of rounds and every
    index read is within the spine. *)
Fixpoint ancestor_from (rounds : nat) (n : Z) (predicate : tree A -> bool)
    (this : TreeTraverser A) : option (tree A) * TreeTraverser A :=
  match rounds with
  | O => (None, this)
  | S rounds' =>
      if n <? 0 then (None, this)
      else
        match JsArray.at_ (spine this) n with
        | Some x =>
            if predicate x then
              let this' :=
                mkTraverser (JsArray.slice 0 (Some (n + 1)) (spine this)) in
              (node this', this')
            else ancestor_from rounds' (n - 1) predicate this
        | None => (None, this)
        end
  end.

(** [ancestor(predicate)]: the node returned and the traverser afterwards. *)
Definition ancestor (predicate : tree A -> bool) (this : TreeTraverser A)
    : option (tree A) * TreeTraverser A :=
  ancestor_from (length (spine this)) (JsArray.len (spine this) - 2)
    predicate this.

(** The nodes at or below [t] in depth-first preorder. *)
Fixpoint preorder (t : tree A) {struct t} : list (tree A) :=
  t ::
  match t with
  | Node _ (Some cs) => flat_map preorder cs
  | Node _ None => []
  end.

End Visitors.
End Visitors.

(** ** The order of a full traversal *)

Module Walks.
Import Tree.
Section Walks.
Context {A V : Type}.

(** A traversal enters a node and, later, leaves it. *)
Inductive visit :=
| Enter (t : tree A) (spine : list (tree A))
| Leave (t : tree A) (spine : list (tree A)).

(** Depth first: a node is entered, then its children are walked from the
    first to the last, then the node is left.  [spine] is the spine with
    which the walk of [t] starts. *)
Fixpoint walk (spine : list (tree A)) (t : tree A) {struct t} : list visit :=
  Enter t spine ::
  match t with
  | Node _ (Some cs) => flat_map (walk (spine ++ [t])) cs
  | Node _ None => []
  end ++ [Leave t spine].

(** The hook that a visit calls, when the visitor has it: [preOrder] on
    entering, [postOrder] on leaving. *)
Definition hook_on (visitor : TreeVisitor A V) (v : V) (e : visit) : V :=
  match e with
  | Enter t spine =>
      match preOrder visitor with
      | Some pre => snd (pre t spine v)
      | None => v
      end
  | Leave t spine =>
      match postOrder visitor with
      | Some post => post t spine v
      | None => v
      end
  end.

End Walks.
Arguments visit : clear implicits.
End Walks.

(** ** [class BinarySearch<T>] *)

Module BinarySearch.
Section BinarySearch.
Context {T : Type}.

(** [interface BinarySearchResult] *)
Record BinarySearchResult := mkResult { rank : Z; isExactMatch : bool }.

(** The [while (true)] loop of [_search] over [_sortedArray].  A comparator
    returns a number, of which the loop reads the sign.  [None] stands for a
    loop that is still running when the rounds are used up, and for a read
    outside the array, where the source calls [compare(undefined)]. *)
Fixpoint search_loop (rounds : nat) (compare : T -> Z) (_sortedArray : list T)
    (left right : Z) : option BinarySearchResult :=
  match rounds with
  | O => None
  | S rounds' =>
      if right <? left then Some (mkResult left false)
      else
        let mid := (left + right) / 2 in
        match JsArray.at_ _sortedArray mid with
        | Some x =>
            let compareResult := compare x in
            if compareResult <? 0 then
              search_loop rounds' compare _sortedArray (mid + 1) right
            else if 0 <? compareResult then
              search_loop rounds' compare _sortedArray left (mid - 1)
            else Some (mkResult mid true)
        | None => None
        end
  end.

(** [_search(compare, left)]: the interval searched has at most
    [_sortedArray.length] elements, and each round that goes on halves it. *)
Definition _search (compare : T -> Z) (left : Z) (_sortedArray : list T)
    : option BinarySearchResult :=
  search_loop (S (length _sortedArray)) compare _sortedArray left
    (JsArray.len _sortedArray - 1).

(** [find(compare)]: the element found, or null. *)
Definition find (compare : T -> Z) (_sortedArray : list T)
    : option (option T) :=
  match _search compare 0 _sortedArray with
  | Some result =>
      Some (if isExactMatch result
            then JsArray.at_ _sortedArray (rank result) else None)
  | None => None
  end.

(** The method [rank(compare)]. *)
Definition rankOf (compare : T -> Z) (_sortedArray : list T) : option Z :=
  option_map rank (_search compare 0 _sortedArray).

(** [range(compareLower, compareUpper)] *)
Definition range (compareLower compareUpper : T -> Z) (_sortedArray : list T)
    : option (list T) :=
  match rankOf compareLower _sortedArray with
  | Some rankLower =>
      match _search compareUpper rankLower _sortedArray with
      | Some upper =>
          Some (JsArray.slice rankLower (Some (rank upper)) _sortedArray)
      | None => None
      end
  | None => None
  end.

(** An array sorted for a comparator: along the array the comparator is
    negative, then zero, then positive. *)
Definition ordered (compare : T -> Z) (_sortedArray : list T) : Prop :=
  forall (i j : nat) (x y : T),
    (i <= j)%nat ->
    _sortedArray !! i = Some x -> _sortedArray !! j = Some y ->
    Z.sgn (compare x) <= Z.sgn (compare y).

End BinarySearch.
Arguments BinarySearchResult : clear implicits.
End BinarySearch.

(** ** The state of a debouncer with a call pending *)

Module DebouncerStates.
Import Debouncer.

(** An armed debouncer as [handle] leaves it: it remembers the event, and
    the id of its timer is one that the host has given out. *)
Definition loaded {T} (wait_ms : Z) (event : T) (at_time : Z)
    (log : list (Z * T)) (w : world T) : Prop :=
  armed wait_ms event at_time log w /\
  _lastEvent (debounce w) = Some event /\
  _timer (debounce w) <> Some 0 /\
  0 < next_id w.

End DebouncerStates.

(** ** What the provider keeps of its maps, and the errors of a node *)

Module ProviderStates.
Import Diagnostics.


(** What a registered document adds to the array that [_diagnose] returns,
    when the map inherits from [Object.prototype] only: the diagnostics kept
    under its URI; with none kept, nothing, unless the URI is the name of a
    method of [Object.prototype], when it is one [undefined] for each
    parameter that the method declares. *)
Definition kept_under {D} (m : JsObject.object D) (key : string)
    : list (option D) :=
  match JsObject.own m !! key with
  | Some items => Some <$> items
  | None =>
      replicate (default 0%nat (JsObject.member key JsObject.Object_prototype))
        None
  end.

(** The parse errors that [ErrorVisitor.preOrder] takes from a node: those
    of a phrase that has errors attached. *)
Definition phrase_errors (node : Tree.tree PhpNode) : list ParseError :=
  match isPhrase (Tree.label node), errors (Tree.label node) with
  | true, Some node_errors => node_errors
  | _, _ => []
  end.

End ProviderStates.

(** ** More sample objects *)

Module MoreSamples.

(** Handler 1 calls the token it got when it was subscribed second (index
    1); the other handlers leave the event alone. *)
Definition self_unsubscribing_body (h : nat) (_ : unit)
    : list (Events.action nat) :=
  match h with
  | 1%nat => [Events.CallUnsubscribe (Events.mkUnsubscribe 1)]
  | _ => []
  end.

(** A sorted array of numbers, and the comparator that looks for [target]
    in such an array. *)
Definition sorted_sample : list Z := [10; 20; 30; 40].

Definition against (target : Z) (n : Z) : Z := n - target.

(** A second document, whose root phrase holds a token with an error of its
    own and a phrase with two errors. *)
Definition other_error (kind : Z) : Diagnostics.ParseError :=
  Diagnostics.mkParseError (Diagnostics.mkToken kind 0 1).

Definition other_root : Tree.tree Diagnostics.PhpNode :=
  Tree.Node (Diagnostics.mkPhpNode 0 true None)
    (Some [Tree.Node (Diagnostics.mkPhpNode 1 false (Some [other_error 7])) None;
           Tree.Node (Diagnostics.mkPhpNode 2 true
                        (Some [other_error 8; other_error 9])) (Some [])]).

Definition other_doc : Diagnostics.ParsedDocument :=
  Diagnostics.mkDoc "file:///b.php" other_root Events.constructor.

(** A document without errors whose URI is the name of a method of
    [Object.prototype]. *)
Definition constructor_doc : Diagnostics.ParsedDocument :=
  Diagnostics.mkDoc "constructor"
    (Tree.Node (Diagnostics.mkPhpNode 0 true None) None) Events.constructor.

(** A visitor that writes down the nodes it enters (true) and leaves
    (false), by their numbers. *)
Definition bracket_visitor : Tree.TreeVisitor nat (list (bool * nat)) :=
  {| Tree.haltTraverse := fun _ => false;
     Tree.preOrder := Some (fun t _ seen => (true, seen ++ [(true, Tree.label t)]));
     Tree.postOrder := Some (fun t _ seen => seen ++ [(false, Tree.label t)]) |}.

End MoreSamples.

(** * Properties *)

(** ** Arrays *)

Module JsArrayFacts.
Import JsArray.

Lemma at_of_nat {A} (l : list A) (k : nat) : at_ l (Z.of_nat k) = l !! k.
Proof.
  unfold at_. destruct (Z.ltb_spec (Z.of_nat k) 0); [lia|].
  now rewrite Nat2Z.id.
Qed.

Lemma len_app {A} (l1 l2 : list A) : len (l1 ++ l2) = len l1 + len l2.
Proof. unfold len. rewrite length_app. lia. Qed.

Lemma len_nonneg {A} (l : list A) : 0 <= len l.
Proof. unfold len. lia. Qed.

(** [slice(0)] copies the array. *)
Lemma slice_copy {A} (l : list A) : slice 0 None l = l.
Proof.
  unfold slice, clamp. simpl.
  replace (Z.min 0 (len l)) with 0 by (pose proof (len_nonneg l); lia).
  rewrite Z.sub_0_r. simpl. unfold len. rewrite Nat2Z.id.
  now rewrite firstn_all.
Qed.

Lemma pop_push {A} (l : list A) (x : A) : pop (push l x) = l.
Proof. unfold pop, push. apply removelast_last. Qed.

(** A search for an object that no element equals finds nothing. *)
Lemma indexOf_from_absent {A} (same : A -> bool) (l : list A) (n : Z) :
  (forall x, same x = false) -> indexOf_from same l n = -1.
Proof.
  intros Hs. revert n. induction l as [|y l IH]; intros n; simpl; [easy|].
  now rewrite Hs.
Qed.

End JsArrayFacts.

(** ** Events *)

Module EventFacts.
Import Events.

Section Subscribing.
Context {H T : Type}.
Implicit Types (ev : Event H) (acts : list (action H)).

Lemma perform_only_subscribes acts ev :
  only_subscribes acts ->
  perform acts ev = mkEvent (_subscribed ev ++ subscribed_by acts).
Proof.
  unfold perform. revert ev.
  induction acts as [|a acts IH]; intros ev Hall; simpl.
  - destruct ev. simpl. now rewrite app_nil_r.
  - inversion Hall as [|? ? Ha Hrest]; subst.
    destruct a as [h|u]; [|contradiction].
    rewrite (IH _ Hrest). simpl. unfold JsArray.push.
    now rewrite <- app_assoc.
Qed.

Section Loop.
Variable body : H -> T -> list (action H).
Variable args : T.
Let spawn (h : H) : list H := subscribed_by (body h args).
Let tag (h : H) : H * T := (h, args).

(** The loop at position [k] of a list whose handlers from [k] on are
    [current] (what is left of the generation being called) and [next] (what
    the handlers of that generation called so far have subscribed): it calls
    the rest of the generation, then the generations that follow, each
    handler once, and appends them to the list as it goes. *)
Lemma trigger_from_generations (depth : nat) :
  forall current next (done : list H) calls fuel,
    let later := generations body args depth (next ++ spawned body args current) in
    (forall h, In h (current ++ later) -> only_subscribes (body h args)) ->
    generation body args depth (next ++ spawned body args current) = [] ->
    (length (current ++ later) < fuel)%nat ->
    trigger_from body fuel (Z.of_nat (length done)) args
        (mkEvent (done ++ current ++ next)) calls =
      Some (mkEvent (done ++ current ++ later),
            calls ++ map tag (current ++ later)).
Proof.
  assert (Hcons : forall h current next,
            next ++ spawned body args (h :: current) =
              (next ++ spawn h) ++ spawned body args current).
  { intros h current next. unfold spawned, spawn. simpl. now rewrite app_assoc. }
  assert (Hstep : forall h current next done calls fuel,
            only_subscribes (body h args) ->
            trigger_from body (S fuel) (Z.of_nat (length done)) args
                (mkEvent (done ++ (h :: current) ++ next)) calls =
              trigger_from body fuel (Z.of_nat (length (done ++ [h]))) args
                (mkEvent ((done ++ [h]) ++ current ++ (next ++ spawn h)))
                (calls ++ [tag h])).
  { intros h current next done calls fuel Hh. simpl.
    rewrite JsArrayFacts.at_of_nat.
    rewrite (list_lookup_middle done (current ++ next) h (length done) eq_refl).
    rewrite perform_only_subscribes by exact Hh.
    replace (Z.of_nat (length done) + 1)
      with (Z.of_nat (length (done ++ [h])))
      by (rewrite length_app; simpl; lia).
    unfold spawn, tag. cbn [_subscribed]. do 2 f_equal.
    rewrite <- !app_assoc. simpl. now rewrite <- !app_assoc. }
  induction depth as [|depth IHdepth].
  - (* no generation follows: [next] and what [current] subscribes are empty *)
    induction current as [|h current IH];
      intros next done calls fuel later Hsub Hlast Hfuel;
      subst later; cbn [generation generations] in *;
      rewrite ?app_nil_r in *.
    + subst next. destruct fuel as [|fuel]; [simpl in Hfuel; lia|].
      simpl. rewrite JsArrayFacts.at_of_nat, ?app_nil_r.
      now rewrite (proj2 (lookup_ge_None done (length done))) by lia.
    + rewrite Hcons in Hlast.
      destruct fuel as [|fuel]; [simpl in Hfuel; lia|].
      rewrite Hstep by (apply Hsub; now left).
      pose proof (IH (next ++ spawn h) (done ++ [h]) (calls ++ [tag h]) fuel)
        as Hrest.
      cbn [generation generations] in Hrest. rewrite ?app_nil_r in Hrest.
      rewrite Hrest.
      * simpl. rewrite <- !app_assoc. reflexivity.
      * intros g Hg. apply Hsub. now right.
      * exact Hlast.
      * simpl in Hfuel. lia.
  - induction current as [|h current IH];
      intros next done calls fuel later Hsub Hlast Hfuel; subst later.
    + (* the generation is through: [next] is the one to call now *)
      unfold spawned in Hsub, Hlast, Hfuel |- *. simpl in Hsub, Hlast, Hfuel |- *.
      rewrite app_nil_r in Hsub, Hlast, Hfuel |- *.
      fold (spawned body args next) in Hsub, Hlast, Hfuel |- *.
      pose proof (IHdepth next [] done calls fuel) as Hnext.
      simpl in Hnext. rewrite !app_nil_r in Hnext.
      apply Hnext; assumption.
    + rewrite Hcons in Hsub, Hlast, Hfuel |- *.
      destruct fuel as [|fuel]; [simpl in Hfuel; lia|].
      rewrite Hstep by (apply Hsub; now left).
      rewrite (IH (next ++ spawn h) (done ++ [h]) (calls ++ [tag h]) fuel).
      * simpl. rewrite <- !app_assoc. reflexivity.
      * intros g Hg. apply Hsub. simpl. now right.
      * exact Hlast.
      * apply (proj2 (Nat.succ_lt_mono _ _)). exact Hfuel.
Qed.

End Loop.
End Subscribing.

(** C2 (what the code does at the failing input): with three handlers
    subscribed, calling the token of the first and then the token of the
    second leaves the second handler subscribed, and a later [trigger] still
    invokes it; the handler that went is the third.  The token holds the
    index its handler had when it was subscribed, and the earlier [splice]
    moved the handlers. *)
Theorem unsubscribe_uses_stale_index {H T : Type} (a b c : H) (args : T) :
  let '(e1, ua) := subscribe a constructor in
  let '(e2, ub) := subscribe b e1 in
  let '(e3, uc) := subscribe c e2 in
  let ev := unsubscribe ub (unsubscribe ua e3) in
  _subscribed e3 = [a; b; c] /\
  _subscribed ev = [b] /\
  trigger inert 2 args ev = Some (ev, [(b, args)]).
Proof. repeat split. Qed.

(** C6 (counterexample): handler 0 subscribes handler 1 while [trigger] is
    calling it, and that same [trigger] call goes on to invoke handler 1. *)
Lemma trigger_invokes_newly_subscribed :
  ~ Samples.invokes_only_prior_handlers Samples.subscribing_body 3 tt
      (mkEvent [0%nat]).
Proof.
  intros Hclaim.
  specialize (Hclaim (mkEvent [0%nat; 1%nat]) [(0%nat, tt); (1%nat, tt)] eq_refl 1%nat).
  simpl in Hclaim. destruct Hclaim as [Heq|[]]; [now right; left|discriminate].
Qed.

(** C6 (amended): when the handlers that [trigger(args)] calls only
    subscribe, and the handlers subscribed during the call make finitely
    many generations, the call returns, and it has invoked, in the order of
    the list, the handlers subscribed before the call and, after them,
    every handler subscribed during it: those that the first ones
    subscribed, then those that these subscribed, and so on.  The list
    holds them all afterwards. *)
Theorem trigger_invokes_handlers_subscribed_during_call {H T : Type}
    (body : H -> T -> list (action H)) (args : T) (ev : Event H)
    (depth : nat) :
  let all := generations body args depth (_subscribed ev) in
  (forall h, In h all -> only_subscribes (body h args)) ->
  generation body args depth (_subscribed ev) = [] ->
  forall fuel, (length all < fuel)%nat ->
    trigger body fuel args ev =
      Some (mkEvent all, map (fun h => (h, args)) all).
Proof.
  intros all Hsub Hlast fuel Hfuel. unfold trigger.
  destruct depth as [|depth].
  - simpl in Hlast. destruct ev as [l]. simpl in Hlast. subst l.
    destruct fuel as [|fuel]; [simpl in Hfuel; lia|]. reflexivity.
  - pose proof (trigger_from_generations body args depth
                  (_subscribed ev) [] [] [] fuel) as Hrun.
    simpl in Hrun. rewrite app_nil_r in Hrun. destruct ev as [l].
    apply Hrun; assumption.
Qed.

(** Handler 0 subscribes handlers 1 and 2, handler 1 subscribes handler 3,
    which subscribes handler 4: the call invokes the five of them. *)
Lemma trigger_invokes_handlers_subscribed_during_call_witness :
  trigger Samples.chain_body 6 tt (mkEvent [0%nat]) =
    Some (mkEvent [0; 1; 2; 3; 4]%nat,
          [(0, tt); (1, tt); (2, tt); (3, tt); (4, tt)]%nat).
Proof.
  refine (trigger_invokes_handlers_subscribed_during_call
            Samples.chain_body tt (mkEvent [0%nat]) 4 _ eq_refl 6%nat _).
  - intros h Hh. simpl in Hh.
    repeat (destruct Hh as [<-|Hh]; [repeat constructor|]). destruct Hh.
  - simpl. lia.
Defined.

End EventFacts.

(** ** Tree traversal *)

Module TreeFacts.
Import Tree Observed.

Section Engine.
Context {A V : Type}.
Implicit Types (visitor : TreeVisitor A V) (t : tree A) (v : V)
  (spine : list (tree A)).

(** [_traverse], one step unfolded. *)
Lemma _traverse_unfold {W} (visitor : TreeVisitor A W) t (v : W) spine :
  _traverse visitor t v spine =
    if haltTraverse visitor v then (v, spine)
    else
      match preOrder visitor with
      | Some pre =>
          let '(descend, v') := pre t spine v in
          if haltTraverse visitor v' then (v', spine)
          else after_preOrder visitor t descend v' spine
      | None => after_preOrder visitor t true v spine
      end.
Proof. destruct t as [a [cs|]]; reflexivity. Qed.

Lemma _traverse_halted visitor t v spine :
  haltTraverse visitor v = true -> _traverse visitor t v spine = (v, spine).
Proof. intros Hh. rewrite _traverse_unfold. now rewrite Hh. Qed.

Section Chains.
Variable halted : V -> bool.
Implicit Types (l : list (invocation A V)) (i j : invocation A V).

Lemma chain_app v1 l1 v2 l2 v3 :
  chain halted v1 l1 v2 -> chain halted v2 l2 v3 ->
  chain halted v1 (l1 ++ l2) v3.
Proof.
  induction 1 as [|v i l v' Hb Hh Hc IH]; intros H2; simpl; [assumption|].
  constructor; auto.
Qed.

Lemma chain_halted_nil v l v' :
  halted v = true -> chain halted v l v' -> l = [].
Proof. intros Hh Hc. destruct Hc; [reflexivity|congruence]. Qed.

Lemma chain_split v l1 l2 v' :
  chain halted v (l1 ++ l2) v' ->
  exists w, chain halted v l1 w /\ chain halted w l2 v'.
Proof.
  revert v. induction l1 as [|i l1 IH]; intros v Hc; simpl in *.
  - exists v. split; [constructor|assumption].
  - inversion Hc as [|? ? ? ? Hb Hh Hrest]; subst.
    destruct (IH _ Hrest) as (w & H1 & H2).
    exists w. split; [constructor; auto|assumption].
Qed.

Lemma chain_stops v l1 i l2 v' :
  chain halted v (l1 ++ i :: l2) v' ->
  halted (inv_after i) = true -> l2 = [].
Proof.
  intros Hc Hh. apply chain_split in Hc. destruct Hc as (w & _ & Hc).
  inversion Hc as [|? ? ? ? _ _ Hrest]; subst.
  eapply chain_halted_nil; eassumption.
Qed.

Lemma chain_adjacent v l1 i j l2 v' :
  chain halted v (l1 ++ i :: j :: l2) v' -> inv_before j = inv_after i.
Proof.
  intros Hc. apply chain_split in Hc. destruct Hc as (w & _ & Hc).
  inversion Hc as [|? ? ? ? _ _ Hrest]; subst.
  now inversion Hrest.
Qed.

End Chains.

Section Recording.
Variable visitor : TreeVisitor A V.
Implicit Types (log : list (invocation A V))
  (scope : list (tree A * list (tree A))).

Lemma follows_refl v log scope p :
  follows visitor v log scope (v, p) ((v, log), p).
Proof.
  exists []. simpl. rewrite app_nil_r. repeat split; constructor.
Qed.

Lemma follows_scope v log scope scope' plain recorded :
  (forall x, In x scope -> In x scope') ->
  follows visitor v log scope plain recorded ->
  follows visitor v log scope' plain recorded.
Proof.
  intros Hsub (new & Heq & Hc & Hin). exists new. repeat split; auto.
  eapply List.Forall_impl; [|exact Hin]. simpl. intros i [Hi Hg]. auto.
Qed.

Lemma follows_trans v log scope v1 s1 log1 plain recorded :
  follows visitor v log scope (v1, s1) ((v1, log1), s1) ->
  follows visitor v1 log1 scope plain recorded ->
  follows visitor v log scope plain recorded.
Proof.
  intros (n1 & Heq1 & Hc1 & Hin1) (n2 & Heq2 & Hc2 & Hin2).
  simpl in *. inversion Heq1 as [Hlog]. subst log1.
  exists (n1 ++ n2). rewrite app_assoc. repeat split; auto.
  - eapply chain_app; eassumption.
  - apply Forall_app. auto.
Qed.

Lemma follows_step v log scope i :
  inv_before i = v -> haltTraverse visitor v = false ->
  In (inv_node i, inv_spine i) scope -> genuine visitor i -> forall s,
  follows visitor v log scope (inv_after i, s) ((inv_after i, log ++ [i]), s).
Proof.
  intros Hb Hh Hin Hg s. exists [i]. split; [reflexivity|]. split.
  - constructor; auto. constructor.
  - constructor; auto.
Qed.

Lemma run_postOrder_follows t v log scope spine :
  haltTraverse visitor v = false -> In (t, spine) scope ->
  follows visitor v log scope (run_postOrder visitor t v spine)
    (run_postOrder (recording visitor) t (v, log) spine).
Proof.
  intros Hh Hin. unfold run_postOrder. simpl.
  destruct (postOrder visitor) as [post|] eqn:Hpost; simpl.
  - apply (follows_step v log scope
             (mkInvocation PostOrderHook t spine v (post t spine v))); auto.
    exists post. now split.
  - apply follows_refl.
Qed.

Lemma run_postOrder_spine t v spine :
  snd (run_postOrder visitor t v spine) = spine.
Proof. unfold run_postOrder. now destruct (postOrder visitor). Qed.

(** What is shown of [_traverse] at each node. *)
Let sound (t : tree A) : Prop :=
  forall v log spine,
    follows visitor v log (nodes_with_ancestors spine t)
      (_traverse visitor t v spine)
      (_traverse (recording visitor) t (v, log) spine) /\
    (haltTraverse visitor (fst (_traverse visitor t v spine)) = false ->
     snd (_traverse visitor t v spine) = spine).

Lemma children_loop_follows cs :
  Forall sound cs -> forall v log spine,
  let plain := children_loop visitor (_traverse visitor) cs v spine in
  let recorded :=
    children_loop (recording visitor) (_traverse (recording visitor)) cs
      (v, log) spine in
  fst recorded = fst plain /\
  follows visitor v log (flat_map (nodes_with_ancestors spine) cs)
    (snd plain) (snd recorded) /\
  (fst plain = true -> haltTraverse visitor (fst (snd plain)) = true) /\
  (fst plain = false ->
   snd (snd plain) = spine /\
   (haltTraverse visitor v = false ->
    haltTraverse visitor (fst (snd plain)) = false)).
Proof.
  induction 1 as [|c cs Hc Hcs IH]; intros v log spine; simpl.
  - repeat split; auto; try discriminate. apply follows_refl.
  - destruct (Hc v log spine) as [Hf Hs].
    destruct (_traverse visitor c v spine) as [v1 s1] eqn:Hplain.
    destruct Hf as (new & Heq & Hchain & Hin). simpl in *.
    rewrite Heq. simpl.
    assert (Hhere : follows visitor v log
              (nodes_with_ancestors spine c ++
               flat_map (nodes_with_ancestors spine) cs)
              (v1, s1) ((v1, log ++ new), s1)).
    { exists new. repeat split; auto.
      eapply List.Forall_impl; [|exact Hin]. simpl.
      intros i [Hi Hg]. split; [|exact Hg]. apply in_or_app. now left. }
    destruct (haltTraverse visitor v1) eqn:Hh1; simpl.
    + repeat split; auto; discriminate.
    + specialize (Hs eq_refl). subst s1.
      destruct (IH v1 (log ++ new) spine) as (Hflag & Hfol & Ht & Hf').
      repeat split; auto.
      * eapply follows_trans; [exact Hhere|].
        eapply follows_scope; [|exact Hfol].
        intros. apply in_or_app. now right.
      * now apply Hf'.
      * intros _. now apply Hf'.
Qed.

Lemma nodes_with_ancestors_self spine t :
  In (t, spine) (nodes_with_ancestors spine t).
Proof. destruct t as [a [cs|]]; now left. Qed.

Lemma nodes_with_ancestors_child spine a cs x :
  In x (flat_map (nodes_with_ancestors (spine ++ [Node a (Some cs)])) cs) ->
  In x (nodes_with_ancestors spine (Node a (Some cs))).
Proof. intros Hx. now right. Qed.

Lemma after_preOrder_follows t descend v log spine :
  (forall cs, children t = Some cs -> Forall sound cs) ->
  haltTraverse visitor v = false ->
  follows visitor v log (nodes_with_ancestors spine t)
    (after_preOrder visitor t descend v spine)
    (after_preOrder (recording visitor) t descend (v, log) spine) /\
  (haltTraverse visitor (fst (after_preOrder visitor t descend v spine)) = false ->
   snd (after_preOrder visitor t descend v spine) = spine).
Proof.
  intros Hcs Hh. unfold after_preOrder.
  pose proof (nodes_with_ancestors_self spine t) as Hself.
  destruct (children t) as [cs|] eqn:Hchildren;
    [destruct descend|];
    try (split; [now apply run_postOrder_follows
                |intros _; apply run_postOrder_spine]).
  destruct t as [a cs0]. simpl in Hchildren. subst cs0.
  destruct (children_loop_follows cs (Hcs cs eq_refl) v log
              (JsArray.push spine (Node a (Some cs))))
    as (Hflag & Hfol & Htrue & Hfalse).
  destruct (children_loop visitor (_traverse visitor) cs v _)
    as [flag [v1 s1]] eqn:Hplain.
  destruct (children_loop (recording visitor) _ cs (v, log) _)
    as [flag' [[v1' log1] s1']] eqn:Hrec.
  simpl in *. subst flag'.
  apply (follows_scope _ _ _ (nodes_with_ancestors spine (Node a (Some cs))))
    in Hfol; [|apply nodes_with_ancestors_child].
  destruct flag.
  - split; [exact Hfol|]. intros Hn. specialize (Htrue eq_refl).
    simpl in Hn. congruence.
  - destruct (Hfalse eq_refl) as [Hs1 Hh1]. subst s1.
    assert (Hrec' : v1' = v1 /\ s1' = JsArray.push spine (Node a (Some cs))).
    { destruct Hfol as (new & Heq & _). simpl in Heq. now inversion Heq. }
    destruct Hrec' as [-> ->]. rewrite JsArrayFacts.pop_push.
    split; [|intros _; apply run_postOrder_spine].
    eapply follows_trans; [exact Hfol|].
    apply run_postOrder_follows; auto.
Qed.

Lemma sound_step t :
  (forall cs, children t = Some cs -> Forall sound cs) -> sound t.
Proof.
  intros Hcs v log spine. rewrite !_traverse_unfold. simpl.
  pose proof (nodes_with_ancestors_self spine t) as Hself.
  destruct (haltTraverse visitor v) eqn:Hh.
  { split; [apply follows_refl|reflexivity]. }
  destruct (preOrder visitor) as [pre|] eqn:Hhook;
    [|now apply after_preOrder_follows].
  simpl. destruct (pre t spine v) as [descend v1] eqn:Hpre. simpl.
  pose (i := mkInvocation PreOrderHook t spine v v1). fold i.
  assert (Hstep : follows visitor v log (nodes_with_ancestors spine t)
            (v1, spine) ((v1, log ++ [i]), spine)).
  { apply (follows_step v log _ i); auto.
    exists pre. split; [exact Hhook|]. simpl. now rewrite Hpre. }
  destruct (haltTraverse visitor v1) eqn:Hh1.
  { split; [exact Hstep|reflexivity]. }
  destruct (after_preOrder_follows t descend v1 (log ++ [i]) spine Hcs Hh1)
    as [Hfol Hspine].
  split; [|exact Hspine].
  eapply follows_trans; [exact Hstep|exact Hfol].
Qed.

Lemma _traverse_sound t : sound t.
Proof.
  induction t as [a|a cs IH] using tree_ind; apply sound_step; simpl.
  - discriminate.
  - intros cs' Heq. now inversion Heq; subst.
Qed.

(** The invocations of a traversal entered with [spine]: they are chained
    from [v] to the visitor the traversal leaves, each is a call of a hook
    of the visitor, on a node at or below [t], and the spine handed to it is
    [spine] followed by the nodes from [t] down to the parent of that
    node. *)
Lemma invocations_sound t v spine :
  chain (haltTraverse visitor) v (invocations visitor t v spine)
    (fst (_traverse visitor t v spine)) /\
  Forall (fun i =>
            In (inv_node i, inv_spine i) (nodes_with_ancestors spine t) /\
            genuine visitor i)
    (invocations visitor t v spine).
Proof.
  destruct (_traverse_sound t v [] spine) as [(new & Heq & Hc & Hin) _].
  unfold invocations. rewrite Heq. simpl. now split.
Qed.

End Recording.

(** *** [find] *)

Section Find.
Variable predicate : tree A -> bool.
Let FV := FindVisitor predicate.

Lemma first_match_unfold above t :
  first_match predicate above t =
    if predicate t then Some (above ++ [t])
    else match children t with
         | Some cs => first_some (first_match predicate (above ++ [t])) cs
         | None => None
         end.
Proof. destruct t as [a [cs|]]; reflexivity. Qed.

(** What is shown of [_traverse] with a [FindVisitor] at each node. *)
Let finds (t : tree A) : Prop :=
  forall st spine, halt st = false ->
    match first_match predicate spine t with
    | Some path =>
        fst (_traverse FV t st spine) = mkFind (Some path) true
    | None => _traverse FV t st spine = (st, spine)
    end.

Lemma find_children_loop cs :
  Forall finds cs -> forall st spine, halt st = false ->
  let r := children_loop FV (_traverse FV) cs st spine in
  match first_some (first_match predicate spine) cs with
  | Some path => fst r = true /\ fst (snd r) = mkFind (Some path) true
  | None => r = (false, (st, spine))
  end.
Proof.
  induction 1 as [|c cs Hc Hcs IH]; intros st spine Hst; simpl; [reflexivity|].
  specialize (Hc st spine Hst).
  destruct (first_match predicate spine c) as [path|].
  - destruct (_traverse FV c st spine) as [st1 s1]. simpl in Hc. subst st1.
    simpl. now split.
  - rewrite Hc. simpl. rewrite Hst. now apply IH.
Qed.

Lemma finds_step t :
  (forall cs, children t = Some cs -> Forall finds cs) -> finds t.
Proof.
  intros Hcs st spine Hst.
  rewrite _traverse_unfold, first_match_unfold. simpl. rewrite Hst.
  destruct (predicate t) eqn:Hp; simpl.
  { now rewrite JsArrayFacts.slice_copy. }
  rewrite Hst. unfold after_preOrder.
  destruct (children t) as [cs|] eqn:Hchildren; [|reflexivity].
  pose proof (find_children_loop cs (Hcs cs eq_refl) st
                (JsArray.push spine t) Hst) as Hloop.
  simpl in Hloop. unfold JsArray.push in *.
  destruct (first_some (first_match predicate (spine ++ [t])) cs) as [path|].
  - destruct (children_loop _ _ cs st (spine ++ [t])) as [flag [st1 s1]].
    simpl in Hloop. destruct Hloop as [-> ->]. reflexivity.
  - fold FV in Hloop |- *. rewrite Hloop. unfold run_postOrder. simpl.
    unfold JsArray.pop. now rewrite removelast_last.
Qed.

Lemma _traverse_finds t : finds t.
Proof.
  induction t as [a|a cs IH] using tree_ind; apply finds_step; simpl.
  - discriminate.
  - intros cs' Heq. now inversion Heq; subst.
Qed.

(** [find] as a function of the traverser: it looks for the first match in
    depth-first preorder from the current node, and the spine it installs is
    the whole old spine (the current node included) followed by the nodes
    from the current node down to the match. *)
Lemma find_first_match tr t :
  node tr = Some t ->
  find predicate tr =
    Some match first_match predicate (spine tr) t with
         | Some path => (node (mkTraverser path), mkTraverser path)
         | None => (None, tr)
         end.
Proof.
  intros Hnode. unfold find, traverse. rewrite Hnode.
  rewrite JsArrayFacts.slice_copy.
  pose proof (_traverse_finds t FindVisitor_new (spine tr) eq_refl) as Hf.
  fold FV. destruct (first_match predicate (spine tr) t) as [path|].
  - now rewrite Hf.
  - now rewrite Hf.
Qed.

End Find.

(** *** Sibling moves *)

Section Siblings.
Context `{EqDecision A}.

Lemma indexOf_this (this : TreeTraverser A) (cs : list (tree A)) :
  JsArray.indexOf (fun c => strict_eq (ONode c) (OTraverser this)) cs = -1.
Proof. apply JsArrayFacts.indexOf_from_absent. reflexivity. Qed.

(** [prevSibling] never moves: the index it computes is always -1. *)
Lemma prevSibling_stays (this : TreeTraverser A) :
  prevSibling this = Return (None, this) \/ prevSibling this = TypeError.
Proof.
  unfold prevSibling.
  destruct (JsArray.len (spine this) <? 2); [now left|].
  destruct (JsArray.at_ _ _) as [[a [cs|]]|]; try now right.
  rewrite indexOf_this. now left.
Qed.

(** [nextSibling] moves to the first child of the parent, wherever the
    traverser stands. *)
Lemma nextSibling_first_child (above : list (tree A)) a c cs current :
  let parent := Node a (Some (c :: cs)) in
  nextSibling (mkTraverser (above ++ [parent; current])) =
    Return (Some c, mkTraverser (above ++ [parent; c])).
Proof.
  intros parent. unfold nextSibling. cbn [spine].
  assert (Hlen : JsArray.len (above ++ [parent; current])
                 = Z.of_nat (length above) + 2).
  { rewrite JsArrayFacts.len_app. unfold JsArray.len. simpl. lia. }
  rewrite Hlen.
  destruct (Z.ltb_spec (Z.of_nat (length above) + 2) 2) as [Hlt|_]; [lia|].
  replace (Z.of_nat (length above) + 2 - 2) with (Z.of_nat (length above)) by lia.
  rewrite JsArrayFacts.at_of_nat.
  rewrite lookup_app_r, Nat.sub_diag by lia. cbn [lookup list_lookup parent].
  rewrite indexOf_this.
  destruct (Z.ltb_spec (-1) (JsArray.len (c :: cs) - 1)) as [_|Hge];
    [|unfold JsArray.len in Hge; simpl in Hge; lia].
  change (JsArray.at_ (c :: cs) (-1 + 1)) with (Some c). cbv iota beta.
  assert (Hpop : JsArray.push (JsArray.pop (above ++ [parent; current])) c
                 = above ++ [parent; c]).
  { unfold JsArray.push, JsArray.pop.
    replace (above ++ [parent; current]) with ((above ++ [parent]) ++ [current])
      by now rewrite <- app_assoc.
    rewrite removelast_last. now rewrite <- app_assoc. }
  rewrite Hpop. unfold node. cbn [spine].
  replace (above ++ [parent; c]) with ((above ++ [parent]) ++ [c])
    by now rewrite <- app_assoc.
  now rewrite last_snoc.
Qed.

End Siblings.

End Engine.

(** The hooks of [traverse] are those of [_traverse] entered at the current
    node with a copy of the traverser's whole spine, the current node
    included: each hook is handed that spine followed by the nodes from the
    current node down to the parent of the node visited. *)
Lemma traverse_invocations_spine {A V} (visitor : TreeVisitor A V) (v : V)
    (tr : TreeTraverser A) (t : tree A) :
  node tr = Some t ->
  exists log,
    traverse_invocations visitor v tr = Some log /\
    Forall (fun i =>
              In (inv_node i, inv_spine i)
                 (nodes_with_ancestors (ancestors tr ++ [t]) t)) log.
Proof.
  intros Hnode. unfold traverse_invocations, traverse. rewrite Hnode.
  rewrite JsArrayFacts.slice_copy. simpl.
  exists (invocations visitor t v (spine tr)). split; [reflexivity|].
  assert (Hspine : spine tr = ancestors tr ++ [t]).
  { unfold ancestors, node in *. destruct tr as [sp]. simpl in *.
    destruct (exists_last (l:=sp)) as (l & x & ->).
    - intros ->. discriminate.
    - rewrite last_snoc in Hnode. inversion Hnode; subst.
      now rewrite removelast_last. }
  rewrite <- Hspine.
  eapply List.Forall_impl; [|apply invocations_sound]. simpl. tauto.
Qed.

(** C3 (what the code does at the failing input): a traverser standing on
    the root of the sample tree hands the hooks on the root the spine
    [[0]], not the empty list of its ancestors, and the hooks on every node
    below a spine in which the root comes twice.  [traverse] passes
    [_traverse] a copy of the whole spine, the current node included, and
    [_traverse] pushes the current node once more before it descends. *)
Theorem traverse_spine_repeats_current_node :
  let tr := mkTraverser [Samples.node0] in
  option_map (map Samples.shown)
      (traverse_invocations Samples.idle_visitor tt tr) =
    Some [(PreOrderHook, 0, [0]); (PreOrderHook, 1, [0; 0]);
          (PreOrderHook, 3, [0; 0; 1]); (PostOrderHook, 3, [0; 0; 1]);
          (PostOrderHook, 1, [0; 0]); (PreOrderHook, 2, [0; 0]);
          (PostOrderHook, 2, [0; 0]); (PostOrderHook, 0, [0])]%nat /\
  map (fun p => (label (fst p), map label (snd p)))
      (nodes_with_ancestors (ancestors tr) Samples.node0) =
    [(0, []); (1, [0]); (3, [0; 1]); (2, [0])]%nat.
Proof. split; reflexivity. Qed.

(** C4: a traversal entered with [haltTraverse] set invokes no hook and
    returns at once; once a hook leaves [haltTraverse] set, no other hook is
    invoked; and the loop over the children returns after the first child
    whose traversal leaves the flag set, the siblings after it untouched.
    The invocations are those of the visitor itself: each is a call of
    one of its hooks, the first starts from the visitor given, each next one
    from the visitor the one before left, and the traversal returns the
    visitor the last one left. *)
Theorem halt_stops_traversal {A V} (visitor : TreeVisitor A V)
    (treeNode : tree A) (v : V) (spine : list (tree A)) :
  let log := invocations visitor treeNode v spine in
  (haltTraverse visitor v = true ->
     log = [] /\ _traverse visitor treeNode v spine = (v, spine)) /\
  (forall l1 i l2, log = l1 ++ i :: l2 ->
     haltTraverse visitor (inv_after i) = true -> l2 = []) /\
  (forall c cs v' spine',
     haltTraverse visitor (fst (_traverse visitor c v' spine')) = true ->
     children_loop visitor (_traverse visitor) (c :: cs) v' spine' =
       (true, _traverse visitor c v' spine')) /\
  chain (haltTraverse visitor) v log (fst (_traverse visitor treeNode v spine)) /\
  Forall (genuine visitor) log.
Proof.
  intros log.
  destruct (invocations_sound visitor treeNode v spine) as [Hchain Hcalls].
  fold log in Hchain, Hcalls. repeat split.
  - eapply chain_halted_nil; eassumption.
  - now apply _traverse_halted.
  - intros l1 i l2 Hlog Hh. rewrite Hlog in Hchain.
    eapply chain_stops; eassumption.
  - intros c cs v' spine' Hh. simpl.
    destruct (_traverse visitor c v' spine') as [v1 s1]. simpl in Hh.
    now rewrite Hh.
  - exact Hchain.
  - eapply List.Forall_impl; [|exact Hcalls]. simpl. tauto.
Qed.

(** A visitor that halts once it has entered two nodes: entered halted it
    does nothing, and entered fresh it stops after the second node. *)
Lemma halt_stops_traversal_witness :
  invocations (Samples.halting_visitor 2) Samples.node0 5%nat [] = [] /\
  _traverse (Samples.halting_visitor 2) Samples.node0 5%nat [] = (5%nat, []) /\
  map Samples.shown
      (take 2 (invocations (Samples.halting_visitor 2) Samples.node0 0%nat [])) =
    [(PreOrderHook, 0, []); (PreOrderHook, 1, [0])]%nat /\
  drop 2 (invocations (Samples.halting_visitor 2) Samples.node0 0%nat []) = [].
Proof.
  destruct (halt_stops_traversal (Samples.halting_visitor 2) Samples.node0
              5%nat []) as (Hentry & _).
  destruct (Hentry eq_refl) as [Hnone Hsame].
  destruct (halt_stops_traversal (Samples.halting_visitor 2) Samples.node0
              0%nat []) as (_ & Hstop & _).
  split; [exact Hnone|]. split; [exact Hsame|]. split; [reflexivity|].
  exact (Hstop [mkInvocation PreOrderHook Samples.node0 [] 0%nat 1%nat]
               (mkInvocation PreOrderHook Samples.node1 [Samples.node0]
                  1%nat 2%nat)
               _ eq_refl eq_refl).
Defined.

(** C8 (what the code does at the failing input): with the traverser on
    node 1, whose next sibling is node 2, [nextSibling] returns node 1 and
    stays; on node 2, the last child, it returns node 1 instead of null; and
    [prevSibling] on node 2 returns null instead of node 1.  Both methods
    look up the traverser, not its current node, among the children of the
    parent, so that the index is -1 in every call. *)
Theorem sibling_moves_look_up_the_traverser :
  nextSibling (mkTraverser [Samples.node0; Samples.node1]) =
    Return (Some Samples.node1, mkTraverser [Samples.node0; Samples.node1]) /\
  nextSibling (mkTraverser [Samples.node0; Samples.node2]) =
    Return (Some Samples.node1, mkTraverser [Samples.node0; Samples.node1]) /\
  prevSibling (mkTraverser [Samples.node0; Samples.node2]) =
    Return (None, mkTraverser [Samples.node0; Samples.node2]).
Proof. repeat split. Qed.

(** C10 (what the code does at the failing input): from a traverser on the
    root of the sample tree, [find] of node 3 returns node 3, and the spine
    it installs is [[0; 0; 1; 3]], where the path from the root to the match
    is [[0; 1; 3]]: the spine the [FindVisitor] copies holds the current
    node twice.  With no match [find] returns null and leaves the spine. *)
Theorem find_spine_repeats_current_node :
  let tr := mkTraverser [Samples.node0] in
  let is3 := fun t : tree nat => Nat.eqb (label t) 3 in
  let is4 := fun t : tree nat => Nat.eqb (label t) 4 in
  option_map (fun r => (option_map label (fst r), map label (spine (snd r))))
      (find is3 tr) = Some (Some 3, [0; 0; 1; 3])%nat /\
  option_map (map label) (first_match is3 (ancestors tr) Samples.node0) =
    Some [0; 1; 3]%nat /\
  find is4 tr = Some (None, tr).
Proof. repeat split. Qed.

End TreeFacts.

(** ** Debouncing *)

Module DebounceFacts.
Import Debouncer.

Section Quiescence.
Context {T : Type}.
Implicit Types (w : world T) (e : T) (log : list (Z * T)).

Lemma filter_own_timer (id at_time : Z) e :
  filter (fun x => timer_id x <> id) [mkTimer id at_time e] = [].
Proof. rewrite filter_cons, filter_nil. now case_decide. Qed.

(** With nothing pending, the loop has nothing to fire. *)
Lemma run_until_idle t w :
  pending w = [] ->
  run_until t w =
    mkWorld (Z.max (now w) t) (next_id w) [] (debounce w) (handled w).
Proof. intros Hp. unfold run_until. rewrite Hp. simpl. now rewrite Hp. Qed.

Lemma timer_delay_in_range (delay : Z) :
  0 <= delay <= TIMEOUT_MAX -> timer_delay delay = delay.
Proof.
  intros Hd. unfold timer_delay.
  destruct (Z.ltb_spec TIMEOUT_MAX delay); lia.
Qed.


(** [handle] from a world with nothing pending arms the debouncer. *)
Lemma handle_idle e w :
  pending w = [] ->
  armed (_wait (debounce w)) e (now w + timer_delay (_wait (debounce w)))
    (handled w) (handle e w) /\
  now (handle e w) = now w.
Proof.
  intros Hp. unfold handle, clear, armed.
  destruct (_timer (debounce w)) as [i|]; simpl; rewrite Hp; simpl;
    (split; [eexists; repeat split|reflexivity]).
Qed.

(** [handle] on an armed debouncer cancels the pending call and arms it for
    the new event. *)
Lemma handle_armed wait_ms e0 e at_time log w :
  armed wait_ms e0 at_time log w ->
  armed wait_ms e (now w + timer_delay wait_ms) log (handle e w) /\
  now (handle e w) = now w.
Proof.
  intros (id & Hp & Ht & Hw & Hl). unfold handle, clear, armed.
  rewrite Ht. simpl. rewrite Hp.
  rewrite !filter_own_timer. simpl. rewrite Hw, Hl.
  split; [eexists; repeat split|reflexivity].
Qed.

(** The loop on an armed debouncer: before the timer is due nothing happens;
    from then on the handler has been called once, at the due time. *)
Lemma run_until_armed wait_ms e at_time log w t :
  armed wait_ms e at_time log w -> now w <= at_time ->
  handled (run_until t w) =
    (if at_time <=? t then log ++ [(at_time, e)] else log) /\
  (t < at_time -> armed wait_ms e at_time log (run_until t w)) /\
  now (run_until t w) = Z.max (now w) t.
Proof.
  intros (id & Hp & Ht & Hw & Hl) Hnow. unfold run_until. rewrite Hp. simpl.
  rewrite Hp. simpl.
  destruct (Z.leb_spec at_time t) as [Hle|Hgt]; simpl.
  - unfold fire, later, clear. simpl. rewrite Ht. simpl. rewrite Hp.
    rewrite !filter_own_timer. simpl. rewrite Hl.
    replace (Z.max (now w) at_time) with at_time by lia.
    split; [reflexivity|]. split; lia.
  - repeat split; auto. intros _. exists id. simpl. now repeat split.
Qed.


Lemma last_nonempty {X} (c : X) (l : list X) (d d' : X) :
  List.last (c :: l) d = List.last (c :: l) d'.
Proof.
  revert c. induction l as [|x l IH]; intros c; [reflexivity|].
  change (List.last (x :: l) d = List.last (x :: l) d'). apply IH.
Qed.

Lemma elapsed_cons (g : Z) e (calls : list (Z * T)) :
  elapsed ((g, e) :: calls) = g + elapsed calls.
Proof. reflexivity. Qed.

(** A burst of calls on an armed debouncer, each less than the delay of its
    timer after the one before: the debouncer stays armed, for the last
    event, and the handler is not called. *)
Lemma session_armed wait_ms (rest : list (Z * T)) :
  Forall (fun c => 0 <= fst c < timer_delay wait_ms) rest ->
  forall e0 log w,
    armed wait_ms e0 (now w + timer_delay wait_ms) log w ->
    let w' := session rest w in
    armed wait_ms (last_event (0, e0) rest) (now w' + timer_delay wait_ms)
      log w' /\
    now w' = now w + elapsed rest.
Proof.
  induction 1 as [|[g e] rest Hg Hrest IH]; intros e0 log w Harmed; simpl.
  - split; [exact Harmed|unfold elapsed; simpl; lia].
  - simpl in Hg.
    destruct (run_until_armed wait_ms e0 _ log w (now w + g) Harmed)
      as (_ & Hstill & Hnow); [lia|].
    specialize (Hstill ltac:(lia)).
    destruct (handle_armed wait_ms e0 e _ log _ Hstill) as [Harmed' Hnow'].
    rewrite <- Hnow' in Harmed'.
    destruct (IH e log _ Harmed') as [Hfinal Htime].
    split.
    + unfold last_event in *. simpl.
      destruct rest as [|c rest']; [exact Hfinal|].
      now rewrite (last_nonempty c rest' (0, e0) (0, e)).
    + rewrite Htime, Hnow', Hnow, elapsed_cons. lia.
Qed.

(** A burst of calls from a debouncer with nothing pending leaves it armed
    for the last event, with the handler not called. *)
Lemma burst_armed wait_ms (w0 : world T) (first : Z * T)
    (rest : list (Z * T)) :
  pending w0 = [] ->
  _wait (debounce w0) = wait_ms ->
  0 <= fst first ->
  Forall (fun c => 0 <= fst c < timer_delay wait_ms) rest ->
  let w := session (first :: rest) w0 in
  armed wait_ms (last_event first rest) (now w + timer_delay wait_ms)
    (handled w0) w /\
  now w = now w0 + elapsed (first :: rest).
Proof.
  intros Hidle Hwait Hfirst Hrest w.
  destruct first as [g1 e1]. simpl in Hfirst.
  pose (w1 := run_until (now w0 + g1) w0).
  assert (Hw1 : w1 = mkWorld (now w0 + g1) (next_id w0) [] (debounce w0)
                       (handled w0)).
  { unfold w1. rewrite run_until_idle by assumption. f_equal. lia. }
  destruct (handle_idle e1 w1) as [Harmed Hnow1]; [now rewrite Hw1|].
  assert (Hfields : _wait (debounce w1) = wait_ms /\ handled w1 = handled w0)
    by (rewrite Hw1; auto).
  destruct Hfields as (Hf1 & Hf2).
  rewrite Hf1, Hf2, <- Hnow1 in Harmed.
  destruct (session_armed wait_ms rest Hrest e1 (handled w0) _ Harmed)
    as [Hfinal Htime].
  change (session rest (handle e1 w1)) with w in Hfinal, Htime.
  assert (Hlast : last_event (0, e1) rest = last_event (g1, e1) rest).
  { unfold last_event. destruct rest as [|c rest']; [reflexivity|].
    now rewrite (last_nonempty c rest' (0, e1) (g1, e1)). }
  rewrite Hlast in Hfinal. split; [exact Hfinal|].
  rewrite Htime, Hnow1, Hw1, elapsed_cons. simpl. lia.
Qed.

(** Within the range of the host's timers, the delay is the wait. *)
Lemma gaps_in_range wait_ms (rest : list (Z * T)) :
  0 <= wait_ms <= TIMEOUT_MAX ->
  Forall (fun c => 0 <= fst c < wait_ms) rest ->
  Forall (fun c => 0 <= fst c < timer_delay wait_ms) rest.
Proof. intros Hw. now rewrite timer_delay_in_range. Qed.

End Quiescence.



(** [handle] never reads the property [wait]. *)
Lemma handle_ignores_wait {T : Type} (value : Z) (e : T) (w : world T) :
  pending (handle e (with_debounce (assign_wait value (debounce w)) w)) =
    pending (handle e w).
Proof. destruct w as [? ? ? [? [id|] ? ?] ?]; reflexivity. Qed.

End DebounceFacts.

(** ** The diagnostics provider *)

Module DiagnosticsFacts.
Import Diagnostics.

Section Provider.
Context {Range : Type}.
Variable tokenRange : ParsedDocument -> Token -> Range.
Variable tokenTypeToString : Z -> string.
Implicit Types (p : DiagnosticsProvider Range) (doc : ParsedDocument)
  (docs : list ParsedDocument) (target : string).

Lemma _find_loop_spec target docs : forall shifted found,
  _find_loop target docs shifted found =
    (shifted ++ others target docs, last_with target docs found).
Proof.
  induction docs as [|d docs IH]; intros shifted found; simpl.
  - now rewrite app_nil_r.
  - destruct (String.eqb (uri d) target); simpl; rewrite IH; [reflexivity|].
    unfold JsArray.push. now rewrite <- app_assoc.
Qed.

Lemma last_with_some target docs : forall found d,
  last_with target docs found = Some d ->
  (In d docs /\ uri d = target) \/ found = Some d.
Proof.
  unfold last_with.
  induction docs as [|x docs IH]; intros found d Hd; simpl in *; [now right|].
  apply IH in Hd. destruct Hd as [[Hin Hu]|Hd]; [left; auto|].
  destruct (String.eqb_spec (uri x) target) as [Hx|Hx]; [|now right].
  inversion Hd; subst. left. auto.
Qed.

Lemma last_with_none target docs :
  last_with target docs None = None ->
  forall d, In d docs -> uri d <> target.
Proof.
  unfold last_with. intros Hnone d Hin Hu.
  assert (Hgen : forall found, is_Some found \/ (exists x, In x docs /\ uri x = target) ->
            is_Some (fold_left
              (fun acc x => if String.eqb (uri x) target then Some x else acc)
              docs found)).
  { clear. induction docs as [|x docs IH]; intros found Hsome; simpl.
    - destruct Hsome as [Hs|(x & [] & _)]. exact Hs.
    - apply IH. destruct (String.eqb_spec (uri x) target) as [Hx|Hx].
      + left. eauto.
      + destruct Hsome as [Hs|(y & [<-|Hy] & Huy)]; [now left|contradiction|].
        right. eauto. }
  destruct (Hgen None) as [x Hx]; [right; eauto|]. congruence.
Qed.

Lemma others_In target docs d :
  In d (others target docs) <-> In d docs /\ uri d <> target.
Proof.
  unfold others. rewrite filter_In, negb_true_iff.
  split; intros [Hin Hu]; (split; [exact Hin|]).
  - intros Heq. apply String.eqb_eq in Heq. congruence.
  - now apply String.eqb_neq.
Qed.

Lemma others_fresh target docs :
  (forall d, In d docs -> uri d <> target) -> others target docs = docs.
Proof.
  unfold others. induction docs as [|d docs IH]; intros Hall; simpl; [reflexivity|].
  destruct (String.eqb_spec (uri d) target) as [Hd|Hd]; simpl.
  - exfalso. eapply Hall; [now left|exact Hd].
  - f_equal. apply IH. intros x Hx. apply Hall. now right.
Qed.

Lemma others_NoDup target docs :
  List.NoDup (map uri docs) -> List.NoDup (map uri (others target docs)).
Proof.
  unfold others. induction docs as [|d docs IH]; intros Hnd; simpl; [constructor|].
  inversion Hnd as [|? ? Hnotin Hrest]; subst.
  destruct (negb (String.eqb (uri d) target)); simpl; [|now apply IH].
  constructor; [|now apply IH].
  intros Hin. apply Hnotin. apply in_map_iff in Hin.
  destruct Hin as (x & Hux & Hx). apply filter_In in Hx.
  apply in_map_iff. exists x. tauto.
Qed.

(** [_find] as a function of the list of documents. *)
Lemma _find_spec target p :
  _find target p =
    match last_with target (_docs p) None with
    | Some doc => (Some doc, with_docs (doc :: others target (_docs p)) p)
    | None => (None, with_docs (others target (_docs p)) p)
    end.
Proof.
  unfold _find. rewrite _find_loop_spec. simpl.
  now destruct (last_with target (_docs p) None).
Qed.

Lemma registered_iff target p :
  registered target p <-> is_Some (last_with target (_docs p) None).
Proof.
  split.
  - intros (d & Hin & Hu).
    destruct (last_with target (_docs p) None) eqn:Hl; [eauto|].
    exfalso. eapply last_with_none; eassumption.
  - intros [d Hd]. apply last_with_some in Hd.
    destruct Hd as [[Hin Hu]|Hd]; [|discriminate]. exists d. auto.
Qed.

(** [has(uri)] says whether a document with that URI is registered. *)
Lemma has_spec target p :
  fst (has target p) = true <-> registered target p.
Proof.
  unfold has. rewrite _find_spec, registered_iff.
  destruct (last_with target (_docs p) None) as [d|]; simpl.
  - split; [eauto|reflexivity].
  - split; [discriminate|]. intros [x Hx]. discriminate.
Qed.

(** A lookup keeps every field but the order of [_docs], and keeps the URIs
    of [_docs] distinct. *)
Lemma _find_NoDup target p :
  List.NoDup (map uri (_docs p)) ->
  List.NoDup (map uri (_docs (snd (_find target p)))).
Proof.
  intros Hnd. rewrite _find_spec.
  destruct (last_with target (_docs p) None) as [d|] eqn:Hl; simpl;
    [|now apply others_NoDup].
  constructor; [|now apply others_NoDup].
  apply last_with_some in Hl. destruct Hl as [[_ Hu]|Hl]; [|discriminate].
  intros Hin. apply in_map_iff in Hin. destruct Hin as (x & Hux & Hx).
  apply others_In in Hx. destruct Hx as [_ Hx]. congruence.
Qed.


Lemma _find_fields target p :
  let p' := snd (_find target p) in
  maxItems p' = maxItems p /\ _maxItems p' = _maxItems p /\
  _debounceWaitTime p' = _debounceWaitTime p /\
  _debounceMap p' = _debounceMap p /\
  _unsubscribeMap p' = _unsubscribeMap p /\
  _diagnosticsMap p' = _diagnosticsMap p.
Proof.
  simpl. rewrite _find_spec.
  destruct (last_with target (_docs p) None); simpl; repeat split.
Qed.

Lemma has_snd target p : snd (has target p) = snd (_find target p).
Proof. unfold has. now destruct (_find target p). Qed.

(** What is kept by every call on a provider: the URIs of [_docs] stay
    distinct and [_maxItems] stays undefined. *)
Let kept (p : DiagnosticsProvider Range) : Prop :=
  List.NoDup (map uri (_docs p)) /\ _maxItems p = None.

Lemma kept_find target p : kept p -> kept (snd (_find target p)).
Proof.
  intros [Hnd Hmax]. split; [now apply _find_NoDup|].
  destruct (_find_fields target p) as (_ & -> & _). exact Hmax.
Qed.

Lemma kept_add doc p : kept p -> kept (snd (add doc p)).
Proof.
  intros Hk. unfold add.
  pose proof (has_spec (uri doc) p) as Hhas.
  pose proof (kept_find (uri doc) p Hk) as [Hnd Hmax].
  rewrite <- has_snd in Hnd, Hmax.
  assert (Hdocs : forall d, In d (_docs (snd (has (uri doc) p))) -> In d (_docs p)).
  { intros d. rewrite has_snd, _find_spec.
    destruct (last_with (uri doc) (_docs p) None) as [x|] eqn:Hl; simpl.
    - intros [<-|Hin].
      + apply last_with_some in Hl. destruct Hl as [[Hin _]|Hl]; [auto|discriminate].
      + now apply others_In in Hin.
    - intros Hin. now apply others_In in Hin. }
  destruct (has (uri doc) p) as [present p1]. simpl in *.
  destruct present; simpl; [now split|].
  split; [|exact Hmax].
  constructor; [|exact Hnd].
  intros Hin. apply in_map_iff in Hin. destruct Hin as (x & Hux & Hx).
  assert (Hreg : registered (uri doc) p) by (exists x; auto).
  apply Hhas in Hreg. discriminate.
Qed.

Lemma kept_remove target p : kept p -> kept (snd (remove target p)).
Proof.
  intros Hk. unfold remove.
  pose proof (kept_find target p Hk) as Hk1.
  rewrite <- has_snd in Hk1.
  destruct (has target p) as [present p1]. simpl in *.
  destruct present; simpl; [|exact Hk1].
  destruct (_unsubscribeMap p1 !! target); [|exact Hk1].
  destruct Hk1 as [Hnd Hmax].
  assert (Htail : List.NoDup (map uri (tail (_docs p1)))).
  { destruct (_docs p1) as [|d docs']; [constructor|].
    simpl in *. now inversion Hnd. }
  simpl. destruct (_debounceMap p1 !! target); simpl; now split.
Qed.

Lemma kept_diagnose target p :
  kept p -> kept (snd (_diagnose tokenRange tokenTypeToString target p)).
Proof.
  intros Hk. unfold _diagnose.
  pose proof (kept_find target p Hk) as Hk1.
  destruct (_find target p) as [found p1]. simpl in Hk1.
  destruct found as [doc|]; [|exact Hk1].
  destruct (doc_traverse ErrorVisitor [] doc); [|exact Hk1].
  destruct (_diagnose_loop _ _ _); exact Hk1.
Qed.

Lemma kept_step p c :
  kept p -> kept (step tokenRange tokenTypeToString p c).
Proof.
  intros Hk. destruct c as [doc|target|target|value|value|args]; simpl.
  - now apply kept_add.
  - now apply kept_remove.
  - rewrite has_snd. now apply kept_find.
  - exact Hk.
  - exact Hk.
  - unfold _onParsedDocumentChanged.
    pose proof (kept_diagnose (uri (parsedDocument args)) p Hk) as Hd.
    destruct (_diagnose _ _ _ p) as [[diags|e] p']; exact Hd.
Qed.

Lemma kept_after calls : kept (after tokenRange tokenTypeToString calls).
Proof.
  unfold after.
  assert (Hgen : forall p, kept p ->
            kept (fold_left (step tokenRange tokenTypeToString) calls p)).
  { induction calls as [|c calls IH]; intros p Hk; simpl; [exact Hk|].
    apply IH. now apply kept_step. }
  apply Hgen. split; [constructor|reflexivity].
Qed.

(** Without a value in [_maxItems], [_diagnose] returns all that its loop
    over the registered documents has gathered. *)
Lemma _diagnose_uncut target p diags p' :
  _maxItems p = None ->
  _diagnose tokenRange tokenTypeToString target p = (Returns diags, p') ->
  _diagnose_loop (_diagnosticsMap p') (_docs p') [] = Some diags.
Proof.
  intros Hmax. unfold _diagnose.
  destruct (_find_fields target p) as (_ & Hm & _).
  destruct (_find target p) as [found p1]. simpl in Hm.
  destruct found as [doc|]; [|discriminate].
  destruct (doc_traverse ErrorVisitor [] doc); [|discriminate].
  destruct (_diagnose_loop _ _ _) as [gathered|] eqn:Hloop; [|discriminate].
  intros Heq. inversion Heq; subst. simpl in *.
  rewrite Hloop, Hm, Hmax. now rewrite JsArrayFacts.slice_copy.
Qed.

(** Whatever calls came before, the payload of a publish event is the whole
    list gathered for the registered documents. *)
Lemma publish_is_uncut calls args emitted p' :
  _onParsedDocumentChanged tokenRange tokenTypeToString args
      (after tokenRange tokenTypeToString calls) = (Returns emitted, p') ->
  exists diags,
    _diagnose_loop (_diagnosticsMap p') (_docs p') [] = Some diags /\
    emitted =
      [StartDiagnostics (uri (parsedDocument args));
       Publish (mkPublish (uri (parsedDocument args)) diags)].
Proof.
  unfold _onParsedDocumentChanged.
  destruct (_diagnose _ _ _ _) as [[diags|e] p1] eqn:Hd; [|discriminate].
  intros Heq. inversion Heq; subst.
  apply _diagnose_uncut in Hd; [eauto|].
  apply kept_after.
Qed.

(** C1 (what the code does at the failing input): a provider with one
    document registered whose tree has 101 parse errors publishes, when the
    document changes, a list of 101 diagnostics, with [maxItems] at its
    default of 100.  [_diagnose] cuts the list at [this._maxItems], a field
    that nothing assigns; the limit is kept in [this.maxItems]. *)
Theorem publish_exceeds_maxItems :
  let p := after tokenRange tokenTypeToString [CallAdd Samples.sample_doc] in
  exists diags p',
    _onParsedDocumentChanged tokenRange tokenTypeToString
        (mkArgs Samples.sample_doc) p =
      (Returns [StartDiagnostics "file:///a.php";
                Publish (mkPublish "file:///a.php" diags)], p') /\
    length diags = 101%nat /\
    maxItems p' = 100 /\
    _maxItems p' = None.
Proof.
  eexists. eexists. split; [vm_compute; reflexivity|].
  repeat split.
Qed.


End Provider.


(** C7 (what the code does at the failing input): a debouncer made with a
    wait of 1000, whose [wait] is then assigned 50, sets on the next
    [handle] a timer due 1000 milliseconds later, and its handler runs then
    and not before.  The class has no member [wait]: the assignment makes a
    property that [handle], which reads [_wait], never looks at.  So does
    the [debounceWait] setter of the provider for the debouncers it holds. *)
Theorem assigned_wait_is_never_read {T : Type} (e : T) :
  let d := Debouncer.assign_wait 50 (Debouncer.constructor 1000) in
  let w := Debouncer.handle e (Debouncer.boot 0 d) in
  let p := set_debounceWait 50
             (snd (add Samples.sample_doc (constructor (Range:=unit)))) in
  Debouncer.wait (Debouncer.debounce w) = Some 50 /\
  map Debouncer.due (Debouncer.pending w) = [1000] /\
  Debouncer.handled (Debouncer.run_until 999 w) = [] /\
  Debouncer.handled (Debouncer.run_until 1000 w) = [(1000, e)] /\
  _debounceWaitTime p = 50 /\
  Debouncer._wait <$> (_debounceMap p !! "file:///a.php") = Some 1000.
Proof. repeat split. Qed.


End DiagnosticsFacts.

(** ** More on tree traversal: the visitors that collect *)

Module VisitorFacts.
Import Tree Observed Visitors.

Section Collecting.
Context {A V : Type}.
Implicit Types (t : tree A) (v : V) (spine : list (tree A)).

(** A visitor that never halts, always descends and has no [postOrder]
    folds its [preOrder] over the nodes in depth-first preorder, and leaves
    the spine as it was. *)
Lemma _traverse_collects (visitor : TreeVisitor A V)
    (pre : tree A -> list (tree A) -> V -> bool * V) :
  (forall v, haltTraverse visitor v = false) ->
  preOrder visitor = Some pre ->
  (forall t spine v, fst (pre t spine v) = true) ->
  postOrder visitor = None ->
  forall t v spine,
    _traverse visitor t v spine =
      (fold_left (fun v p => snd (pre (fst p) (snd p) v))
         (nodes_with_ancestors spine t) v, spine).
Proof.
  intros Hhalt Hpre Hdescend Hpost.
  induction t as [a|a cs IH] using tree_ind; intros v spine;
    rewrite TreeFacts._traverse_unfold, Hhalt, Hpre.
  - pose proof (Hdescend (Node a None) spine v) as Hd.
    destruct (pre (Node a None) spine v) as [d v1] eqn:Epre.
    simpl in Hd. subst d.
    rewrite Hhalt. unfold after_preOrder, run_postOrder. simpl.
    now rewrite Hpost, Epre.
  - assert (Hloop : forall s0 v0,
      children_loop visitor (_traverse visitor) cs v0 s0 =
        (false, (fold_left (fun v p => snd (pre (fst p) (snd p) v))
                   (flat_map (nodes_with_ancestors s0) cs) v0, s0))).
    { clear v spine. induction IH as [|c cs Hc Hcs IHcs]; intros s0 v0; simpl.
      - reflexivity.
      - rewrite Hc, Hhalt, fold_left_app. apply IHcs. }
    set (t := Node a (Some cs)) in *.
    pose proof (Hdescend t spine v) as Hd.
    change (nodes_with_ancestors spine t)
      with ((t, spine) :: flat_map (nodes_with_ancestors (spine ++ [t])) cs).
    simpl fold_left.
    destruct (pre t spine v) as [d v1] eqn:Epre. simpl in Hd. subst d.
    simpl snd. rewrite Hhalt. unfold after_preOrder. simpl children.
    unfold JsArray.push. rewrite Hloop.
    unfold run_postOrder. rewrite Hpost.
    unfold JsArray.pop. now rewrite removelast_last.
Qed.

Lemma nodes_with_ancestors_preorder spine t :
  map fst (nodes_with_ancestors spine t) = preorder t.
Proof.
  revert spine. induction t as [a|a cs IH] using tree_ind; intros spine;
    [reflexivity|].
  change (fst (Node a (Some cs), spine) ::
            map fst (flat_map (nodes_with_ancestors
                                 (spine ++ [Node a (Some cs)])) cs)
          = Node a (Some cs) :: flat_map preorder cs).
  simpl. f_equal. generalize (spine ++ [Node a (Some cs)]). intros s0.
  induction IH as [|c cs Hc Hcs IHcs]; simpl; [reflexivity|].
  now rewrite map_app, Hc, IHcs.
Qed.

(** The same for a [preOrder] that does not read the spine. *)
Lemma _traverse_collects_nodes (visitor : TreeVisitor A V)
    (step : tree A -> V -> V) :
  (forall v, haltTraverse visitor v = false) ->
  preOrder visitor = Some (fun t _ v => (true, step t v)) ->
  postOrder visitor = None ->
  forall t v spine,
    _traverse visitor t v spine =
      (fold_left (fun v t => step t v) (preorder t) v, spine).
Proof.
  intros Hhalt Hpre Hpost t v spine.
  rewrite (_traverse_collects visitor _ Hhalt Hpre (fun _ _ _ => eq_refl) Hpost).
  f_equal. rewrite <- (nodes_with_ancestors_preorder spine t).
  generalize (nodes_with_ancestors spine t). intros l. revert v.
  induction l as [|p l IH]; intros v; simpl; [reflexivity|]. apply IH.
Qed.

End Collecting.

Section Walking.
Context {A V : Type}.
Variable visitor : TreeVisitor A V.
Hypothesis never_halts : forall v, haltTraverse visitor v = false.
Hypothesis always_descends :
  forall pre t spine v, preOrder visitor = Some pre ->
    fst (pre t spine v) = true.

Lemma run_postOrder_leave (t : tree A) (v : V) (spine : list (tree A)) :
  run_postOrder visitor t v spine =
    (Walks.hook_on visitor v (Walks.Leave t spine), spine).
Proof. unfold run_postOrder. simpl. now destruct (postOrder visitor). Qed.

Lemma enter_then_descend (t : tree A) (v : V) (spine : list (tree A)) :
  match preOrder visitor with
  | Some pre =>
      let '(descend, v') := pre t spine v in
      if haltTraverse visitor v' then (v', spine)
      else after_preOrder visitor t descend v' spine
  | None => after_preOrder visitor t true v spine
  end =
  after_preOrder visitor t true
    (Walks.hook_on visitor v (Walks.Enter t spine)) spine.
Proof.
  unfold Walks.hook_on.
  destruct (preOrder visitor) as [pre|] eqn:Hpre; [|reflexivity].
  pose proof (always_descends pre t spine v eq_refl) as Hd.
  destruct (pre t spine v) as [d v1]. simpl in Hd. subst d.
  now rewrite never_halts.
Qed.

Lemma _traverse_walks (t : tree A) : forall v spine,
  _traverse visitor t v spine =
    (fold_left (Walks.hook_on visitor) (Walks.walk spine t) v, spine).
Proof.
  induction t as [a|a cs IH] using tree_ind; intros v spine;
    rewrite TreeFacts._traverse_unfold, never_halts, enter_then_descend.
  - unfold after_preOrder. simpl children. rewrite run_postOrder_leave.
    reflexivity.
  - assert (Hloop : forall s0 v0,
      children_loop visitor (_traverse visitor) cs v0 s0 =
        (false, (fold_left (Walks.hook_on visitor)
                   (flat_map (Walks.walk s0) cs) v0, s0))).
    { clear v spine. induction IH as [|c cs Hc Hcs IHcs]; intros s0 v0; simpl.
      - reflexivity.
      - rewrite Hc, never_halts, fold_left_app. apply IHcs. }
    set (t := Node a (Some cs)) in *.
    change (Walks.walk spine t)
      with (Walks.Enter t spine ::
              flat_map (Walks.walk (spine ++ [t])) cs ++ [Walks.Leave t spine]).
    set (v1 := Walks.hook_on visitor v (Walks.Enter t spine)).
    change (fold_left (Walks.hook_on visitor)
              (Walks.Enter t spine ::
                 flat_map (Walks.walk (spine ++ [t])) cs ++
                 [Walks.Leave t spine]) v)
      with (fold_left (Walks.hook_on visitor)
              (flat_map (Walks.walk (spine ++ [t])) cs ++
                 [Walks.Leave t spine]) v1).
    rewrite fold_left_app.
    unfold after_preOrder. simpl children.
    unfold JsArray.push. rewrite Hloop.
    unfold JsArray.pop. rewrite removelast_last.
    rewrite run_postOrder_leave. reflexivity.
Qed.

End Walking.

(** X21: For a visitor that never sets [haltTraverse] and whose [preOrder]
    always answers true, a traversal calls [preOrder] on a node, then walks
    the children of the node from the first to the last, then calls
    [postOrder] on the node, and so for every node at or below the current
    one; each hook is handed the spine with which the walk reached its node,
    and the spine array is as before when the traversal returns. *)
Theorem traversal_order {A V : Type} (visitor : TreeVisitor A V)
    (t : tree A) (v : V) (spine : list (tree A)) :
  (forall v, haltTraverse visitor v = false) ->
  (forall pre t spine v, preOrder visitor = Some pre ->
     fst (pre t spine v) = true) ->
  _traverse visitor t v spine =
    (fold_left (Walks.hook_on visitor) (Walks.walk spine t) v, spine).
Proof. intros Hhalt Hdescend. now apply _traverse_walks. Qed.

Lemma traversal_order_witness :
  fst (_traverse MoreSamples.bracket_visitor Samples.node0 [] []) =
    [(true, 0); (true, 1); (true, 3); (false, 3); (false, 1);
     (true, 2); (false, 2); (false, 0)]%nat.
Proof.
  exact (f_equal fst
           (traversal_order MoreSamples.bracket_visitor Samples.node0 [] []
              (fun _ => eq_refl)
              (fun pre t spine v Hpre =>
                 match Hpre in _ = o
                   return match o with
                          | Some pre' => fst (pre' t spine v) = true
                          | None => True
                          end
                 with eq_refl => eq_refl end))).
Defined.

Section Methods.
Context {A : Type}.
Implicit Types (t : tree A) (tr : TreeTraverser A) (predicate : tree A -> bool).

Lemma fold_filter predicate (l acc : list (tree A)) :
  fold_left (fun arr n => if predicate n then JsArray.push arr n else arr) l acc
    = acc ++ List.filter predicate l.
Proof.
  revert acc. induction l as [|n l IH]; intros acc; simpl.
  - now rewrite app_nil_r.
  - rewrite IH. destruct (predicate n); [|reflexivity].
    unfold JsArray.push. now rewrite <- app_assoc.
Qed.

Lemma fold_push (l acc : list (tree A)) :
  fold_left (fun arr n => JsArray.push arr n) l acc = acc ++ l.
Proof.
  revert acc. induction l as [|n l IH]; intros acc; simpl.
  - now rewrite app_nil_r.
  - rewrite IH. unfold JsArray.push. now rewrite <- app_assoc.
Qed.

Lemma fold_count (l : list (tree A)) (c : Z) :
  fold_left (fun count (_ : tree A) => count + 1) l c = c + JsArray.len l.
Proof.
  revert c. induction l as [|n l IH]; intros c; unfold JsArray.len in *; simpl.
  - lia.
  - rewrite IH. lia.
Qed.

(** X4: [filter(predicate)] returns the nodes at or below the current node that
    satisfy the predicate, each once, in depth-first preorder. *)
Theorem filter_preorder predicate tr t :
  node tr = Some t ->
  filter predicate tr = Some (List.filter predicate (preorder t)).
Proof.
  intros Hnode. unfold filter, traverse. rewrite Hnode.
  rewrite (_traverse_collects_nodes (FilterVisitor predicate)
             (fun n arr => if predicate n then JsArray.push arr n else arr))
    by reflexivity.
  simpl. now rewrite fold_filter.
Qed.

(** X5: A traversal with a [ToArrayVisitor] leaves in its array every node at or
    below the current node, each once, in depth-first preorder. *)
Theorem ToArrayVisitor_preorder tr t :
  node tr = Some t ->
  traverse ToArrayVisitor [] tr = Some (preorder t).
Proof.
  intros Hnode. unfold traverse. rewrite Hnode.
  rewrite (_traverse_collects_nodes ToArrayVisitor
             (fun n arr => JsArray.push arr n)) by reflexivity.
  simpl. now rewrite fold_push.
Qed.

(** X6: A traversal with a [CountVisitor] counts the nodes at or below the
    current node. *)
Theorem CountVisitor_counts tr t :
  node tr = Some t ->
  traverse CountVisitor 0 tr = Some (JsArray.len (preorder t)).
Proof.
  intros Hnode. unfold traverse. rewrite Hnode.
  rewrite (_traverse_collects_nodes CountVisitor (fun _ count => count + 1))
    by reflexivity.
  simpl. now rewrite fold_count.
Qed.

Lemma exists_last_or_nil {X} (l : list X) :
  l = [] \/ exists l' y, l = l' ++ [y].
Proof.
  destruct l as [|x l]; [now left|]. right.
  destruct (exists_last (l:=x :: l)) as (l' & y & Heq); [discriminate|].
  eauto.
Qed.

Lemma slice_prefix {X} (l : list X) (k : nat) :
  (k <= length l)%nat ->
  JsArray.slice 0 (Some (Z.of_nat k)) l = take k l.
Proof.
  intros Hk. unfold JsArray.slice, JsArray.clamp, JsArray.len. simpl.
  destruct (Z.ltb_spec (Z.of_nat k) 0) as [Hneg|_]; [lia|].
  rewrite Z.min_l, Z.min_l by lia. rewrite Z.sub_0_r, Nat2Z.id. reflexivity.
Qed.

Lemma removelast_take {X} (l : list X) :
  removelast l = take (length l - 1) l.
Proof.
  destruct (exists_last_or_nil l) as [->|(l' & y & ->)]; [reflexivity|].
  rewrite removelast_last, length_app. simpl.
  replace (length l' + 1 - 1)%nat with (length l') by lia.
  now rewrite take_app_length.
Qed.

(** The loop of [ancestor] from index [k - 1] down. *)
Lemma ancestor_from_spec predicate tr : forall (k rounds : nat),
  (k <= rounds)%nat -> (k <= length (spine tr))%nat ->
  match ancestor_from rounds (Z.of_nat k - 1) predicate tr with
  | (Some a, tr') =>
      exists before after,
        take k (spine tr) = before ++ a :: after /\
        predicate a = true /\
        Forall (fun x => predicate x = false) after /\
        spine tr' = before ++ [a]
  | (None, tr') =>
      tr' = tr /\ Forall (fun x => predicate x = false) (take k (spine tr))
  end.
Proof.
  induction k as [|k IH]; intros rounds Hr Hk.
  - destruct rounds; simpl; (split; [reflexivity|constructor]).
  - destruct rounds as [|rounds]; [lia|]. simpl ancestor_from.
    replace (Z.of_nat (S k) - 1) with (Z.of_nat k) by lia.
    destruct (Z.ltb_spec (Z.of_nat k) 0) as [Hneg|_]; [lia|].
    rewrite JsArrayFacts.at_of_nat.
    destruct (spine tr !! k) as [x|] eqn:Hx;
      [|apply lookup_ge_None in Hx; lia].
    assert (Htake : take (S k) (spine tr) = take k (spine tr) ++ [x])
      by now apply take_S_r.
    destruct (predicate x) eqn:Hp.
    + replace (Z.of_nat k + 1) with (Z.of_nat (S k)) by lia.
      rewrite slice_prefix by lia. unfold node. simpl spine.
      rewrite Htake, last_snoc.
      exists (take k (spine tr)), []. repeat split; auto.
    + replace (Z.of_nat k - 1) with (Z.of_nat k - 1) by lia.
      specialize (IH rounds ltac:(lia) ltac:(lia)).
      destruct (ancestor_from rounds (Z.of_nat k - 1) predicate tr)
        as [[a|] tr'].
      * destruct IH as (before & after & Hsplit & Ha & Hafter & Hspine).
        exists before, (after ++ [x]). rewrite Htake, Hsplit.
        repeat split; auto.
        -- now rewrite <- app_assoc.
        -- apply Forall_app. split; [exact Hafter|]. now constructor.
      * destruct IH as [-> Hall]. split; [reflexivity|].
        rewrite Htake. apply Forall_app. split; [exact Hall|]. now constructor.
Qed.

(** X7: [ancestor(predicate)] returns the nearest proper ancestor of the current
    node that satisfies the predicate and cuts the spine after it; when no
    proper ancestor satisfies the predicate, and so when the spine is empty
    or holds one node, it returns null and leaves the spine. *)
Theorem ancestor_nearest predicate tr :
  match ancestor predicate tr with
  | (Some a, tr') =>
      exists before after,
        removelast (spine tr) = before ++ a :: after /\
        predicate a = true /\
        Forall (fun x => predicate x = false) after /\
        spine tr' = before ++ [a] /\
        node tr' = Some a
  | (None, tr') =>
      tr' = tr /\
      Forall (fun x => predicate x = false) (removelast (spine tr))
  end.
Proof.
  unfold ancestor. rewrite removelast_take.
  destruct (Nat.eq_dec (length (spine tr)) 0%nat) as [Hempty|Hsome].
  { rewrite Hempty. simpl. split; [reflexivity|constructor]. }
  pose proof (ancestor_from_spec predicate tr (length (spine tr) - 1)
                (length (spine tr)) ltac:(lia) ltac:(lia)) as Hspec.
  replace (Z.of_nat (length (spine tr) - 1) - 1)
    with (JsArray.len (spine tr) - 2) in Hspec by (unfold JsArray.len; lia).
  destruct (ancestor_from _ _ predicate tr) as [[a|] tr']; [|exact Hspec].
  destruct Hspec as (before & after & H1 & H2 & H3 & H4).
  exists before, after. repeat split; auto.
  unfold node. rewrite H4. apply last_snoc.
Qed.

Lemma first_match_head predicate : forall t (above : list (tree A)),
  match first_match predicate above t with
  | Some path =>
      exists n, last path = Some n /\
        head (List.filter predicate (preorder t)) = Some n
  | None => List.filter predicate (preorder t) = []
  end.
Proof.
  induction t as [a|a cs IH] using tree_ind; intros above;
    rewrite TreeFacts.first_match_unfold.
  - simpl. destruct (predicate (Node a None)).
    + exists (Node a None). split; [apply last_snoc|reflexivity].
    + reflexivity.
  - set (t := Node a (Some cs)) in *.
    change (preorder t) with (t :: flat_map preorder cs).
    simpl List.filter. simpl children.
    destruct (predicate t).
    { exists t. split; [apply last_snoc|reflexivity]. }
    generalize (above ++ [t]). intros s0. clear t.
    induction IH as [|c cs Hc Hcs IHcs]; simpl; [reflexivity|].
    rewrite List.filter_app. specialize (Hc s0).
    destruct (first_match predicate s0 c) as [path|].
    + destruct Hc as (n & Hlast & Hhead). exists n. split; [exact Hlast|].
      destruct (List.filter predicate (preorder c)); [discriminate|exact Hhead].
    + rewrite Hc. exact IHcs.
Qed.

(** X8: [find(predicate)] returns the first node at or below the current node,
    in depth-first preorder, that satisfies the predicate, and leaves the
    traverser standing on it; when no node satisfies the predicate it
    returns null and leaves the traverser as it was. *)
Theorem find_first_in_preorder predicate tr t :
  node tr = Some t ->
  match Tree.find predicate tr with
  | Some (Some n, tr') =>
      head (List.filter predicate (preorder t)) = Some n /\
      predicate n = true /\ node tr' = Some n
  | Some (None, tr') => List.filter predicate (preorder t) = [] /\ tr' = tr
  | None => False
  end.
Proof.
  intros Hnode. rewrite (TreeFacts.find_first_match predicate tr t Hnode).
  pose proof (first_match_head predicate t (spine tr)) as Hfirst.
  destruct (first_match predicate (spine tr) t) as [path|].
  - destruct Hfirst as (n & Hlast & Hhead). unfold node at 1. simpl spine.
    rewrite Hlast. split; [exact Hhead|]. split; [|exact Hlast].
    destruct (List.filter predicate (preorder t)) as [|m l] eqn:Hf;
      [discriminate|].
    inversion Hhead; subst m.
    assert (Hin : In n (List.filter predicate (preorder t)))
      by (rewrite Hf; now left).
    apply filter_In in Hin. tauto.
  - now split.
Qed.

End Methods.

(** The odd-numbered nodes of the sample tree. *)
Lemma filter_preorder_witness :
  filter (fun n : tree nat => Nat.odd (label n)) (mkTraverser [Samples.node0]) =
    Some [Samples.node1; Samples.node3].
Proof.
  exact (filter_preorder (fun n : tree nat => Nat.odd (label n))
           (mkTraverser [Samples.node0]) Samples.node0 eq_refl).
Defined.

Lemma ToArrayVisitor_preorder_witness :
  traverse ToArrayVisitor [] (mkTraverser [Samples.node0; Samples.node1]) =
    Some [Samples.node1; Samples.node3].
Proof.
  exact (ToArrayVisitor_preorder
           (mkTraverser [Samples.node0; Samples.node1]) Samples.node1 eq_refl).
Defined.

Lemma CountVisitor_counts_witness :
  traverse CountVisitor 0 (mkTraverser [Samples.node0]) = Some 4.
Proof.
  exact (CountVisitor_counts (mkTraverser [Samples.node0]) Samples.node0 eq_refl).
Defined.


Lemma find_first_in_preorder_witness :
  let odd := fun n : tree nat => Nat.odd (label n) in
  option_map fst (Tree.find odd (mkTraverser [Samples.node0])) =
    Some (Some Samples.node1) /\
  head (List.filter odd (preorder Samples.node0)) = Some Samples.node1.
Proof.
  intros odd.
  pose proof (find_first_in_preorder odd (mkTraverser [Samples.node0])
                Samples.node0 eq_refl) as H.
  split; [reflexivity|]. exact (proj1 H).
Defined.

Lemma ancestor_nearest_witness :
  let odd := fun n : tree nat => Nat.odd (label n) in
  exists before after,
    removelast [Samples.node0; Samples.node1; Samples.node3] =
      before ++ Samples.node1 :: after /\
    odd Samples.node1 = true /\
    Forall (fun x => odd x = false) after.
Proof.
  intros odd.
  pose proof (ancestor_nearest odd
    (mkTraverser [Samples.node0; Samples.node1; Samples.node3])) as H.
  destruct H as (before & after & H1 & H2 & H3 & _).
  exists before, after. auto.
Defined.

End VisitorFacts.

(** ** More on events *)

Module EventMoreFacts.
Import Events.

Section Tokens.
Context {H T : Type}.
Implicit Types (ev : Event H) (h : H).

Lemma subscribe_many ev (later : list H) :
  _subscribed (fold_left (fun e g => fst (subscribe g e)) later ev) =
    _subscribed ev ++ later.
Proof.
  revert ev. induction later as [|g later IH]; intros ev; simpl.
  - now rewrite app_nil_r.
  - rewrite IH. simpl. unfold JsArray.push. now rewrite <- app_assoc.
Qed.

Lemma splice_one {X} (before after : list X) (x : X) :
  JsArray.splice (JsArray.len before) 1 (before ++ x :: after) = before ++ after.
Proof.
  unfold JsArray.splice, JsArray.clamp.
  pose proof (JsArrayFacts.len_nonneg before) as Hb.
  pose proof (JsArrayFacts.len_nonneg after) as Ha.
  rewrite JsArrayFacts.len_app.
  replace (JsArray.len (x :: after)) with (1 + JsArray.len after)
    by (unfold JsArray.len; simpl length; lia).
  destruct (Z.ltb_spec (JsArray.len before) 0) as [Hneg|_]; [lia|].
  rewrite (Z.min_l (JsArray.len before)) by lia.
  rewrite (Z.min_l (Z.max 1 0)) by lia.
  unfold JsArray.len. rewrite Nat2Z.id.
  replace (Z.to_nat (Z.of_nat (length before) + Z.max 1 0))
    with (length before + 1)%nat by lia.
  rewrite take_app_length.
  rewrite drop_app_ge by lia.
  replace (length before + 1 - length before)%nat with 1%nat by lia.
  reflexivity.
Qed.

Lemma unsubscribe_own ev h (later : list H) :
  let subscription := subscribe h ev in
  let ev' :=
    fold_left (fun e g => fst (subscribe g e)) later (fst subscription) in
  _subscribed ev' = _subscribed ev ++ h :: later /\
  _subscribed (unsubscribe (snd subscription) ev') = _subscribed ev ++ later.
Proof.
  simpl. rewrite subscribe_many. simpl. unfold JsArray.push.
  rewrite <- app_assoc. simpl. split; [reflexivity|].
  rewrite JsArrayFacts.len_app.
  replace (JsArray.len (_subscribed ev) + JsArray.len [h] - 1)
    with (JsArray.len (_subscribed ev)) by (unfold JsArray.len; simpl; lia).
  apply splice_one.
Qed.

(** X1: As long as no token of the event has been called since [h] was
    subscribed, the token of [h] removes [h] and nothing else, whatever was
    subscribed after it: the handlers before and after [h] stay, in their
    order. *)
Theorem unsubscribe_removes_own_handler ev h (later : list H) :
  let subscription := subscribe h ev in
  let ev' :=
    fold_left (fun e g => fst (subscribe g e)) later (fst subscription) in
  _subscribed ev' = _subscribed ev ++ h :: later /\
  _subscribed (unsubscribe (snd subscription) ev') = _subscribed ev ++ later.
Proof. exact (unsubscribe_own ev h later). Qed.

End Tokens.

Section Order.
Context {H T : Type}.
Variable body : H -> T -> list (action H).
Variable args : T.
Implicit Types (ev : Event H) (calls : list (H * T)).

(** The loop over a stretch of handlers that leave the event alone. *)
Lemma trigger_from_inert (stretch : list H) : forall fuel (k : nat) ev calls,
  (forall h, In h stretch -> body h args = []) ->
  take (length stretch) (drop k (_subscribed ev)) = stretch ->
  trigger_from body (length stretch + fuel) (Z.of_nat k) args ev calls =
    trigger_from body fuel (Z.of_nat (k + length stretch)) args ev
      (calls ++ map (fun h => (h, args)) stretch).
Proof.
  induction stretch as [|h stretch IH]; intros fuel k ev calls Hinert Hat.
  - simpl. now rewrite Nat.add_0_r, app_nil_r.
  - simpl length. simpl Nat.add. simpl trigger_from.
    rewrite JsArrayFacts.at_of_nat.
    assert (Hk : _subscribed ev !! k = Some h).
    { destruct (drop k (_subscribed ev)) as [|x l] eqn:Hd; [discriminate|].
      simpl in Hat. inversion Hat; subst x.
      rewrite <- (Nat.add_0_r k), <- lookup_drop, Hd. reflexivity. }
    rewrite Hk. rewrite (Hinert h) by now left.
    change (perform [] ev) with ev.
    replace (Z.of_nat k + 1) with (Z.of_nat (S k)) by lia.
    rewrite IH.
    + replace (S k + length stretch)%nat with (k + S (length stretch))%nat by lia.
      rewrite <- app_assoc. reflexivity.
    + intros g Hg. apply Hinert. now right.
    + rewrite (drop_S _ h k Hk) in Hat. simpl in Hat. congruence.
Qed.

(** X2: When no handler touches the event, [trigger(args)] returns after calling
    every subscribed handler once, with [args], in the order in which they
    were subscribed, and the event is as before. *)
Theorem trigger_in_subscription_order ev (fuel : nat) :
  (forall h, In h (_subscribed ev) -> body h args = []) ->
  (length (_subscribed ev) < fuel)%nat ->
  trigger body fuel args ev =
    Some (ev, map (fun h => (h, args)) (_subscribed ev)).
Proof.
  intros Hinert Hfuel. unfold trigger.
  replace fuel
    with (length (_subscribed ev) + (fuel - length (_subscribed ev)))%nat by lia.
  rewrite (trigger_from_inert (_subscribed ev) _ 0%nat ev [] Hinert)
    by (rewrite drop_0; apply firstn_all).
  destruct (fuel - length (_subscribed ev))%nat as [|fuel'] eqn:Hf; [lia|].
  simpl. rewrite JsArrayFacts.at_of_nat.
  now rewrite (proj2 (lookup_ge_None _ _)) by lia.
Qed.

(** X3: A handler that calls its own token while [trigger] is calling it takes
    itself out of the list under the loop: the handler subscribed right
    after it moves into its place and is not called by that [trigger]; the
    handlers further on are called as usual. *)
Theorem trigger_skips_after_self_unsubscribe
    (before rest : list H) (a b : H) (fuel : nat) :
  (forall h, In h before -> body h args = []) ->
  (forall h, In h rest -> body h args = []) ->
  body a args = [CallUnsubscribe (mkUnsubscribe (JsArray.len before))] ->
  (length before + length rest + 2 < fuel)%nat ->
  trigger body fuel args (mkEvent (before ++ a :: b :: rest)) =
    Some (mkEvent (before ++ b :: rest),
          map (fun h => (h, args)) (before ++ a :: rest)).
Proof.
  intros Hbefore Hrest Ha Hfuel. unfold trigger.
  replace fuel with (length before + (fuel - length before))%nat by lia.
  rewrite (trigger_from_inert before _ 0%nat _ [] Hbefore)
    by (simpl; rewrite drop_0; apply take_app_length).
  simpl Nat.add. simpl app.
  destruct (fuel - length before)%nat as [|fuel1] eqn:Hf1; [lia|].
  simpl trigger_from. rewrite JsArrayFacts.at_of_nat. simpl _subscribed.
  rewrite lookup_app_r, Nat.sub_diag by lia. simpl lookup.
  cbv iota beta. rewrite Ha. simpl perform. unfold unsubscribe. simpl.
  rewrite splice_one.
  replace (Z.of_nat (length before) + 1)
    with (Z.of_nat (S (length before))) by lia.
  replace fuel1 with (length rest + (fuel1 - length rest))%nat by lia.
  rewrite (trigger_from_inert rest _ _ _ _ Hrest).
  - destruct (fuel1 - length rest)%nat as [|fuel2] eqn:Hf2; [lia|].
    simpl trigger_from. rewrite JsArrayFacts.at_of_nat. simpl _subscribed.
    rewrite (proj2 (lookup_ge_None _ _))
      by (rewrite length_app; simpl; lia).
    rewrite map_app. simpl. rewrite <- app_assoc. reflexivity.
  - simpl _subscribed.
    replace (before ++ b :: rest) with ((before ++ [b]) ++ rest)
      by now rewrite <- app_assoc.
    rewrite drop_app_length'; [apply firstn_all|].
    rewrite length_app. simpl. lia.
Qed.

End Order.

(** Three handlers that leave the event alone. *)
Lemma trigger_in_subscription_order_witness :
  trigger inert 4 tt (mkEvent [7%nat; 8%nat; 9%nat]) =
    Some (mkEvent [7%nat; 8%nat; 9%nat],
          [(7%nat, tt); (8%nat, tt); (9%nat, tt)]).
Proof.
  exact (trigger_in_subscription_order inert tt (mkEvent [7%nat; 8%nat; 9%nat])
           4 (fun _ _ => eq_refl) ltac:(simpl; lia)).
Defined.

(** Handlers 0, 1, 2, 3, of which handler 1 unsubscribes itself: handler 2
    is passed over. *)
Lemma trigger_skips_after_self_unsubscribe_witness :
  trigger MoreSamples.self_unsubscribing_body 5 tt
      (mkEvent [0%nat; 1%nat; 2%nat; 3%nat]) =
    Some (mkEvent [0%nat; 2%nat; 3%nat],
          [(0%nat, tt); (1%nat, tt); (3%nat, tt)]).
Proof.
  refine (trigger_skips_after_self_unsubscribe
            MoreSamples.self_unsubscribing_body tt [0%nat] [3%nat]
            1%nat 2%nat 5 _ _ eq_refl _).
  - intros h [<-|[]]. reflexivity.
  - intros h [<-|[]]. reflexivity.
  - simpl. lia.
Defined.

End EventMoreFacts.

(** ** More on debouncing: [flush], [clear] and what a fired timer leaves *)

Module DebounceMoreFacts.
Import Debouncer DebouncerStates.

Section Pending.
Context {T : Type}.
Implicit Types (w : world T) (e : T) (log : list (Z * T)).

Lemma handle_fields e w :
  _lastEvent (debounce (handle e w)) = Some e /\
  _timer (debounce (handle e w)) = Some (next_id w) /\
  next_id (handle e w) = next_id w + 1.
Proof. destruct w as [? ? ? [? [id|] ? ?] ?]; repeat split. Qed.

Lemma fire_next_id (tm : timer T) w : next_id (fire tm w) = next_id w.
Proof. destruct w as [? ? ? [? [id|] ? ?] ?]; reflexivity. Qed.

Lemma run_due_next_id rounds t : forall w,
  next_id (run_due rounds t w) = next_id w.
Proof.
  induction rounds as [|rounds IH]; intros w; simpl; [reflexivity|].
  destruct (earliest (pending w)) as [tm|]; [|reflexivity].
  destruct (due tm <=? t); [|reflexivity].
  now rewrite IH, fire_next_id.
Qed.

Lemma run_until_next_id t w : next_id (run_until t w) = next_id w.
Proof. unfold run_until. simpl. apply run_due_next_id. Qed.

Lemma run_until_lastEvent wait_ms e at_time log w t :
  armed wait_ms e at_time log w -> t < at_time ->
  debounce (run_until t w) = debounce w.
Proof.
  intros (id & Hp & _) Ht. unfold run_until. rewrite Hp. simpl.
  rewrite Hp. simpl.
  destruct (Z.leb_spec at_time t) as [Hle|_]; [lia|reflexivity].
Qed.

(** [handle] on a loaded debouncer loads it for the new event. *)
Lemma handle_loaded wait_ms e0 e at_time log w t :
  loaded wait_ms e0 at_time log w -> now w <= at_time -> t < at_time ->
  let w' := handle e (run_until t w) in
  loaded wait_ms e (now w' + timer_delay wait_ms) log w' /\
  now w' = Z.max (now w) t.
Proof.
  intros (Harmed & Hlast & Hid & Hnext) Hnow Ht w'.
  destruct (DebounceFacts.run_until_armed wait_ms e0 at_time log w t Harmed Hnow)
    as (_ & Hstill & Hclock).
  specialize (Hstill Ht).
  destruct (DebounceFacts.handle_armed wait_ms e0 e at_time log _ Hstill)
    as [Harmed' Hnow'].
  destruct (handle_fields e (run_until t w)) as (Hl & Htm & Hn).
  fold w' in Harmed', Hnow', Hl, Htm, Hn.
  rewrite run_until_next_id in Htm, Hn.
  split; [|now rewrite Hnow'].
  rewrite Hnow'. repeat split; auto.
  - rewrite Htm. intros Heq. inversion Heq. lia.
  - lia.
Qed.

Lemma session_loaded wait_ms (rest : list (Z * T)) :
  Forall (fun c => 0 <= fst c < timer_delay wait_ms) rest ->
  forall e0 log w,
    loaded wait_ms e0 (now w + timer_delay wait_ms) log w ->
    let w' := session rest w in
    loaded wait_ms (last_event (0, e0) rest) (now w' + timer_delay wait_ms)
      log w' /\
    now w' = now w + elapsed rest.
Proof.
  induction 1 as [|[g e] rest Hg Hrest IH]; intros e0 log w Hloaded; simpl.
  - split; [exact Hloaded|unfold elapsed; simpl; lia].
  - simpl in Hg.
    destruct (handle_loaded wait_ms e0 e _ log w (now w + g) Hloaded)
      as [Hloaded' Hnow']; [lia|lia|].
    destruct (IH e log _ Hloaded') as [Hfinal Htime].
    split.
    + unfold last_event in *. simpl.
      destruct rest as [|c rest']; [exact Hfinal|].
      now rewrite (DebounceFacts.last_nonempty c rest' (0, e0) (0, e)).
    + rewrite Htime, Hnow', DebounceFacts.elapsed_cons. lia.
Qed.

(** A burst of calls from a debouncer with nothing pending leaves it loaded
    with the last event. *)
Lemma burst_loaded wait_ms (w0 : world T) (first : Z * T)
    (rest : list (Z * T)) :
  pending w0 = [] ->
  _wait (debounce w0) = wait_ms ->
  0 < next_id w0 ->
  0 <= fst first ->
  Forall (fun c => 0 <= fst c < timer_delay wait_ms) rest ->
  let w := session (first :: rest) w0 in
  loaded wait_ms (last_event first rest) (now w + timer_delay wait_ms)
    (handled w0) w /\
  now w = now w0 + elapsed (first :: rest).
Proof.
  intros Hidle Hwait Hnext Hfirst Hrest w.
  destruct first as [g1 e1]. simpl in Hfirst.
  pose (w1 := run_until (now w0 + g1) w0).
  assert (Hw1 : w1 = mkWorld (now w0 + g1) (next_id w0) [] (debounce w0)
                       (handled w0)).
  { unfold w1. rewrite DebounceFacts.run_until_idle by assumption.
    f_equal. lia. }
  destruct (DebounceFacts.handle_idle e1 w1) as [Harmed Hnow1];
    [now rewrite Hw1|].
  destruct (handle_fields e1 w1) as (Hl & Htm & Hn).
  assert (Hloaded : loaded wait_ms e1
                      (now (handle e1 w1) + timer_delay wait_ms)
                      (handled w0) (handle e1 w1)).
  { assert (Hfields : _wait (debounce w1) = wait_ms /\ handled w1 = handled w0
                       /\ next_id w1 = next_id w0) by (rewrite Hw1; auto).
    destruct Hfields as (Hf1 & Hf2 & Hf3).
    rewrite Hf1, Hf2 in Harmed. rewrite Hf3 in Htm, Hn. rewrite Hnow1.
    split; [exact Harmed|]. split; [exact Hl|]. split.
    - rewrite Htm. intros Heq. inversion Heq. lia.
    - lia. }
  destruct (session_loaded wait_ms rest Hrest e1 (handled w0) _ Hloaded)
    as [Hfinal Htime].
  change (session rest (handle e1 w1)) with w in Hfinal, Htime.
  assert (Hlast : last_event (0, e1) rest = last_event (g1, e1) rest).
  { unfold last_event. destruct rest as [|c rest']; [reflexivity|].
    now rewrite (DebounceFacts.last_nonempty c rest' (0, e1) (g1, e1)). }
  rewrite Hlast in Hfinal. split; [exact Hfinal|].
  rewrite Htime, Hnow1, Hw1, DebounceFacts.elapsed_cons. simpl. lia.
Qed.

(** [flush()] on a loaded debouncer: the timer goes, and the handler is
    called if the event passes the test. *)
Lemma flush_loaded `{ToBoolean T} wait_ms e at_time log w :
  loaded wait_ms e at_time log w ->
  flush w =
    mkWorld (now w) (next_id w) []
      (mkDebounce None None (_wait (debounce w)) (wait (debounce w)))
      (if truthy e then log ++ [(now w, e)] else log).
Proof.
  intros ((id & Hp & Ht & Hw & Hl) & Hlast & Hid & _).
  unfold flush, clear. rewrite Ht, Hlast.
  destruct (Z.eqb_spec id 0) as [->|_]; [congruence|].
  simpl. rewrite Hp, DebounceFacts.filter_own_timer, Hl.
  now destruct (truthy e).
Qed.

Lemma clear_armed wait_ms e at_time log w :
  armed wait_ms e at_time log w ->
  clear w =
    mkWorld (now w) (next_id w) []
      (mkDebounce None None (_wait (debounce w)) (wait (debounce w))) log.
Proof.
  intros (id & Hp & Ht & Hw & Hl). unfold clear. rewrite Ht. simpl.
  rewrite Hp, DebounceFacts.filter_own_timer, Hl. reflexivity.
Qed.





End Pending.

(** X9: for a wait that the host's timers keep, after a burst of calls
    [handle(e1), ..., handle(en)], [flush()] calls the handler at once, with
    [en], when [en] passes the test [if (event)], and does not call it when
    [en] fails the test; either way the timer is cancelled, so that nothing
    is handled afterwards however long the host runs, and a second [flush()]
    does nothing. *)
Theorem flush_fires_pending {T : Type} `{ToBoolean T} (wait_ms : Z)
    (w0 : world T) (first : Z * T) (rest : list (Z * T)) :
  1 <= wait_ms <= TIMEOUT_MAX ->
  pending w0 = [] ->
  _wait (debounce w0) = wait_ms ->
  0 < next_id w0 ->
  0 <= fst first ->
  Forall (fun c => 0 <= fst c < wait_ms) rest ->
  let w := session (first :: rest) w0 in
  let event := last_event first rest in
  handled (flush w) =
    (if truthy event then handled w0 ++ [(now w, event)] else handled w0) /\
  pending (flush w) = [] /\
  (forall t, handled (run_until t (flush w)) = handled (flush w)) /\
  flush (flush w) = flush w.
Proof.
  intros Hrange Hidle Hwait Hnext Hfirst Hrest w event.
  destruct (burst_loaded wait_ms w0 first rest Hidle Hwait Hnext Hfirst)
    as [Hloaded _]; [apply DebounceFacts.gaps_in_range; [lia|exact Hrest]|].
  fold w in Hloaded. fold event in Hloaded.
  rewrite (flush_loaded _ _ _ _ _ Hloaded).
  split; [reflexivity|]. split; [reflexivity|]. split; [|reflexivity].
  intros t. now rewrite DebounceFacts.run_until_idle.
Qed.

(** Three calls, the last with the event 3, and three calls, the last with
    the event 0. *)
Lemma flush_fires_pending_witness :
  let w := session [(0, 1%nat); (10, 2%nat); (10, 3%nat)]
             (boot 0 (constructor 50)) in
  let w' := session [(0, 1%nat); (10, 2%nat); (10, 0%nat)]
              (boot 0 (constructor 50)) in
  (handled (flush w) = [(20, 3%nat)] /\
   handled (run_until 1000 (flush w)) = [(20, 3%nat)]) /\
  (handled (flush w') = [] /\ pending (flush w') = [] /\
   handled (run_until 1000 (flush w')) = []).
Proof.
  pose proof (flush_fires_pending 50 (boot 0 (constructor 50)) (0, 1%nat)
                [(10, 2%nat); (10, 3%nat)]
                ltac:(unfold TIMEOUT_MAX; lia)
                eq_refl eq_refl ltac:(simpl; lia) ltac:(simpl; lia)
                ltac:(repeat constructor; simpl; lia))
    as (Hflush & _ & Hlater & _).
  pose proof (flush_fires_pending 50 (boot 0 (constructor 50)) (0, 1%nat)
                [(10, 2%nat); (10, 0%nat)]
                ltac:(unfold TIMEOUT_MAX; lia)
                eq_refl eq_refl ltac:(simpl; lia) ltac:(simpl; lia)
                ltac:(repeat constructor; simpl; lia))
    as (Hflush' & Hpending' & Hlater' & _).
  intros w w'. split.
  - split; [exact Hflush|]. exact (eq_trans (Hlater 1000) Hflush).
  - split; [exact Hflush'|]. split; [exact Hpending'|].
    exact (eq_trans (Hlater' 1000) Hflush').
Defined.

(** X10: for a wait that the host's timers keep, after a burst of calls,
    [clear()] cancels the pending call: the handler is never called for it,
    however long the host runs, and the debouncer has nothing left to
    flush. *)
Theorem clear_cancels {T : Type} `{ToBoolean T} (wait_ms : Z) (w0 : world T)
    (first : Z * T) (rest : list (Z * T)) :
  1 <= wait_ms <= TIMEOUT_MAX ->
  pending w0 = [] ->
  _wait (debounce w0) = wait_ms ->
  0 <= fst first ->
  Forall (fun c => 0 <= fst c < wait_ms) rest ->
  let w := session (first :: rest) w0 in
  handled (clear w) = handled w0 /\
  pending (clear w) = [] /\
  (forall t, handled (run_until t (clear w)) = handled w0) /\
  flush (clear w) = clear w.
Proof.
  intros Hrange Hidle Hwait Hfirst Hrest w.
  destruct (DebounceFacts.burst_armed wait_ms w0 first rest Hidle Hwait Hfirst)
    as [Harmed _];
    [apply DebounceFacts.gaps_in_range; [lia|exact Hrest]|].
  fold w in Harmed. rewrite (clear_armed _ _ _ _ _ Harmed).
  split; [reflexivity|]. split; [reflexivity|]. split; [|reflexivity].
  intros t. now rewrite DebounceFacts.run_until_idle.
Qed.

Lemma clear_cancels_witness :
  let w := session [(0, 1%nat); (10, 2%nat)] (boot 0 (constructor 50)) in
  pending (clear w) = [] /\ handled (run_until 1000 (clear w)) = [].
Proof.
  pose proof (clear_cancels 50 (boot 0 (constructor 50)) (0, 1%nat)
                [(10, 2%nat)] ltac:(unfold TIMEOUT_MAX; lia)
                eq_refl eq_refl ltac:(simpl; lia)
                ltac:(repeat constructor; simpl; lia))
    as (_ & Hpending & Hlater & _).
  intros w. split; [exact Hpending|]. exact (Hlater 1000).
Defined.



End DebounceMoreFacts.

(** ** Binary search *)

Module BinarySearchFacts.
Import BinarySearch.

Section Reads.
Context {T : Type}.
Variable arr : list T.

Lemma at_Some (i : Z) (x : T) :
  JsArray.at_ arr i = Some x <-> 0 <= i /\ arr !! Z.to_nat i = Some x.
Proof.
  unfold JsArray.at_. destruct (Z.ltb_spec i 0) as [Hneg|Hpos].
  - split; [discriminate|lia].
  - tauto.
Qed.

Lemma at_in_range (i : Z) :
  0 <= i < JsArray.len arr -> exists x, JsArray.at_ arr i = Some x.
Proof.
  intros Hi. unfold JsArray.len in Hi.
  destruct (lookup_lt_is_Some_2 arr (Z.to_nat i) ltac:(lia)) as [x Hx].
  exists x. apply at_Some. split; [lia|exact Hx].
Qed.

Lemma mid_between (left right : Z) :
  left <= right -> left <= (left + right) / 2 <= right.
Proof.
  intros Hle. split.
  - apply Z.div_le_lower_bound; lia.
  - apply Z.div_le_upper_bound; lia.
Qed.

Lemma In_at (x : T) :
  In x arr <-> exists i, JsArray.at_ arr i = Some x.
Proof.
  rewrite <- list_elem_of_In, list_elem_of_lookup. split.
  - intros [k Hk]. exists (Z.of_nat k). apply at_Some.
    rewrite Nat2Z.id. split; [lia|exact Hk].
  - intros [i Hi]. apply at_Some in Hi. destruct Hi as [_ Hi]. eauto.
Qed.

End Reads.

Section Search.
Context {T : Type}.
Variable compare : T -> Z.
Variable arr : list T.

Lemma ordered_at (i j : Z) (x y : T) :
  ordered compare arr -> i <= j ->
  JsArray.at_ arr i = Some x -> JsArray.at_ arr j = Some y ->
  Z.sgn (compare x) <= Z.sgn (compare y).
Proof.
  intros Hord Hij Hx Hy. apply at_Some in Hx. apply at_Some in Hy.
  destruct Hx as [Hi Hx], Hy as [Hj Hy].
  apply (Hord (Z.to_nat i) (Z.to_nat j)); auto. lia.
Qed.

(** What the loop returns on the interval from [left] to [right]. *)
Lemma search_loop_spec (rounds : nat) : forall left right,
  0 <= left -> right < JsArray.len arr ->
  Z.max 0 (right - left + 1) < Z.of_nat rounds ->
  exists r,
    search_loop rounds compare arr left right = Some r /\
    left <= rank r <= Z.max left (right + 1) /\
    (isExactMatch r = true ->
       rank r <= right /\
       exists x, JsArray.at_ arr (rank r) = Some x /\ compare x = 0) /\
    (ordered compare arr -> isExactMatch r = false ->
       (forall i x, left <= i < rank r ->
          JsArray.at_ arr i = Some x -> compare x < 0) /\
       (forall i x, rank r <= i <= right ->
          JsArray.at_ arr i = Some x -> 0 < compare x)).
Proof.
  induction rounds as [|rounds IH]; intros left right Hleft Hright Hfuel;
    [lia|].
  simpl. destruct (Z.ltb_spec right left) as [Hempty|Hle].
  { eexists. split; [reflexivity|]. simpl.
    split; [lia|]. split; [discriminate|].
    intros _ _. split; intros i x Hi; lia. }
  pose proof (mid_between left right Hle) as Hmid.
  set (mid := (left + right) / 2) in *.
  destruct (at_in_range arr mid ltac:(lia)) as [x Hx]. rewrite Hx.
  destruct (Z.ltb_spec (compare x) 0) as [Hneg|Hnonneg].
  - destruct (IH (mid + 1) right ltac:(lia) Hright ltac:(lia))
      as (r & Hr & Hbounds & Hexact & Hsorted).
    exists r. split; [exact Hr|]. split; [lia|]. split; [exact Hexact|].
    intros Hord Hno. destruct (Hsorted Hord Hno) as [Hbelow Habove].
    split; [|exact Habove].
    intros i y Hi Hy. destruct (Z.le_gt_cases i mid) as [Him|Him].
    + pose proof (ordered_at i mid y x Hord Him Hy Hx) as Hs.
      rewrite (Z.sgn_neg (compare x)) in Hs by lia.
      destruct (Z.sgn_spec (compare y)) as [[? ?]|[[? ?]|[? ?]]]; lia.
    + apply (Hbelow i y); [lia|exact Hy].
  - destruct (Z.ltb_spec 0 (compare x)) as [Hpos|Hzero].
    + destruct (IH left (mid - 1) Hleft ltac:(lia) ltac:(lia))
        as (r & Hr & Hbounds & Hexact & Hsorted).
      exists r. split; [exact Hr|]. split; [lia|]. split.
      { intros He. destruct (Hexact He) as [Hrk Hhit]. split; [lia|exact Hhit]. }
      intros Hord Hno. destruct (Hsorted Hord Hno) as [Hbelow Habove].
      split; [exact Hbelow|].
      intros i y Hi Hy. destruct (Z.le_gt_cases mid i) as [Him|Him].
      * pose proof (ordered_at mid i x y Hord Him Hx Hy) as Hs.
        rewrite (Z.sgn_pos (compare x)) in Hs by lia.
        destruct (Z.sgn_spec (compare y)) as [[? ?]|[[? ?]|[? ?]]]; lia.
      * apply (Habove i y); [lia|exact Hy].
    + eexists. split; [reflexivity|]. simpl. split; [lia|]. split.
      * intros _. split; [lia|]. exists x. split; [exact Hx|lia].
      * discriminate.
Qed.

(** X12: [_search] from a [left] that is not negative returns: its rank lies
    between [left] and the length of the array, and when it reports an
    exact match, the element at that rank is one the comparator answers 0
    for. *)
Theorem _search_returns (left : Z) :
  0 <= left ->
  exists r,
    _search compare left arr = Some r /\
    left <= rank r <= Z.max left (JsArray.len arr) /\
    (isExactMatch r = true ->
       exists x, JsArray.at_ arr (rank r) = Some x /\ compare x = 0).
Proof.
  intros Hleft. unfold _search.
  destruct (search_loop_spec (S (length arr)) left (JsArray.len arr - 1)
              Hleft ltac:(lia) ltac:(unfold JsArray.len; lia))
    as (r & Hr & Hbounds & Hexact & _).
  exists r. split; [exact Hr|].
  replace (JsArray.len arr - 1 + 1) with (JsArray.len arr) in Hbounds by lia.
  split; [exact Hbounds|]. intros He. now destruct (Hexact He).
Qed.

(** X13: On an array sorted for the comparator, a search that reports no exact
    match returns the insertion point: from [left] up to the rank the
    comparator is negative, from the rank on it is positive, so that no
    element from [left] on is answered 0. *)
Theorem _search_insertion_point (left : Z) :
  ordered compare arr -> 0 <= left ->
  exists r,
    _search compare left arr = Some r /\
    (isExactMatch r = false ->
       (forall i x, left <= i < rank r ->
          JsArray.at_ arr i = Some x -> compare x < 0) /\
       (forall i x, rank r <= i ->
          JsArray.at_ arr i = Some x -> 0 < compare x)).
Proof.
  intros Hord Hleft. unfold _search.
  destruct (search_loop_spec (S (length arr)) left (JsArray.len arr - 1)
              Hleft ltac:(lia) ltac:(unfold JsArray.len; lia))
    as (r & Hr & Hbounds & _ & Hsorted).
  exists r. split; [exact Hr|]. intros Hno.
  destruct (Hsorted Hord Hno) as [Hbelow Habove].
  split; [exact Hbelow|].
  intros i x Hi Hx. apply (Habove i x); [|exact Hx].
  apply at_Some in Hx. destruct Hx as [Hi0 Hx].
  apply lookup_lt_Some in Hx. unfold JsArray.len. lia.
Qed.

(** X14: [find(compare)] on an array sorted for the comparator: it returns an
    element that the comparator answers 0 for when the array has one, and
    null only when the array has none. *)
Theorem find_exact_match :
  ordered compare arr ->
  match find compare arr with
  | Some (Some x) => In x arr /\ compare x = 0
  | Some None => forall x, In x arr -> compare x <> 0
  | None => False
  end.
Proof.
  intros Hord. unfold find, _search.
  destruct (search_loop_spec (S (length arr)) 0 (JsArray.len arr - 1)
              ltac:(lia) ltac:(lia) ltac:(unfold JsArray.len; lia))
    as (r & Hr & Hbounds & Hexact & Hsorted).
  rewrite Hr. destruct (isExactMatch r) eqn:He.
  - destruct (Hexact eq_refl) as (_ & x & Hx & Hzero). rewrite Hx.
    split; [|exact Hzero]. apply In_at. eauto.
  - destruct (Hsorted Hord eq_refl) as [Hbelow Habove].
    intros x Hin. apply In_at in Hin. destruct Hin as [i Hi].
    pose proof Hi as Hrange. apply at_Some in Hrange.
    destruct Hrange as [Hi0 Hlook]. apply lookup_lt_Some in Hlook.
    destruct (Z.lt_ge_cases i (rank r)) as [Hlt|Hge].
    + pose proof (Hbelow i x ltac:(lia) Hi). lia.
    + pose proof (Habove i x ltac:(unfold JsArray.len; lia) Hi). lia.
Qed.

End Search.

Section Range.
Context {T : Type}.
Variable arr : list T.

Lemma In_slice (rl ru : Z) (x : T) :
  0 <= rl <= ru -> ru <= JsArray.len arr ->
  In x (JsArray.slice rl (Some ru) arr) <->
  exists i, rl <= i < ru /\ JsArray.at_ arr i = Some x.
Proof.
  intros Hrl Hru. unfold JsArray.slice, JsArray.clamp.
  destruct (Z.ltb_spec rl 0) as [?|_]; [lia|].
  destruct (Z.ltb_spec ru 0) as [?|_]; [lia|].
  rewrite !Z.min_l by lia.
  rewrite <- list_elem_of_In, elem_of_take. split.
  - intros (k & Hk & Hlt). rewrite lookup_drop in Hk.
    exists (rl + Z.of_nat k). split; [lia|]. apply at_Some.
    split; [lia|]. now replace (Z.to_nat (rl + Z.of_nat k))
      with (Z.to_nat rl + k)%nat by lia.
  - intros (i & Hi & Hx). apply at_Some in Hx. destruct Hx as [_ Hx].
    exists (Z.to_nat (i - rl)). split; [|lia]. rewrite lookup_drop.
    now replace (Z.to_nat rl + Z.to_nat (i - rl))%nat with (Z.to_nat i) by lia.
Qed.

(** X15: [range(compareLower, compareUpper)] on an array sorted for both
    comparators returns a stretch of the array.  Its elements are not below
    the lower bound and not above the upper bound, and every element that
    is strictly between the bounds is in it. *)
Theorem range_between (compareLower compareUpper : T -> Z) :
  ordered compareLower arr -> ordered compareUpper arr ->
  exists rankLower rankUpper,
    0 <= rankLower <= rankUpper /\ rankUpper <= JsArray.len arr /\
    range compareLower compareUpper arr =
      Some (JsArray.slice rankLower (Some rankUpper) arr) /\
    (forall x, In x (JsArray.slice rankLower (Some rankUpper) arr) ->
       0 <= compareLower x /\ compareUpper x <= 0) /\
    (forall x, In x arr -> 0 < compareLower x -> compareUpper x < 0 ->
       In x (JsArray.slice rankLower (Some rankUpper) arr)).
Proof.
  intros Hlo Hhi. unfold range, rankOf, _search.
  pose proof (JsArrayFacts.len_nonneg arr) as Hlen.
  destruct (search_loop_spec compareLower arr (S (length arr)) 0
              (JsArray.len arr - 1)
              ltac:(lia) ltac:(lia) ltac:(unfold JsArray.len; lia))
    as (r1 & Hr1 & Hb1 & He1 & Hs1).
  rewrite Hr1. simpl option_map.
  destruct (search_loop_spec compareUpper arr (S (length arr)) (rank r1)
              (JsArray.len arr - 1)
              ltac:(lia) ltac:(lia) ltac:(unfold JsArray.len; lia))
    as (r2 & Hr2 & Hb2 & He2 & Hs2).
  rewrite Hr2.
  exists (rank r1), (rank r2).
  split; [lia|]. split; [lia|]. split; [reflexivity|].
  assert (Hin : forall i x, JsArray.at_ arr i = Some x ->
                  0 <= i <= JsArray.len arr - 1).
  { intros i x Hx. apply at_Some in Hx. destruct Hx as [Hi Hx].
    apply lookup_lt_Some in Hx. unfold JsArray.len. lia. }
  split.
  - intros x Hx. apply In_slice in Hx; [|lia|lia].
    destruct Hx as (i & Hi & Hx). split.
    + destruct (isExactMatch r1) eqn:E1.
      * destruct (He1 eq_refl) as (_ & y & Hy & Hzero).
        pose proof (ordered_at compareLower arr (rank r1) i y x Hlo
                      ltac:(lia) Hy Hx) as Hs.
        rewrite Hzero in Hs. simpl in Hs.
        destruct (Z.sgn_spec (compareLower x)) as [[? ?]|[[? ?]|[? ?]]]; lia.
      * destruct (Hs1 Hlo eq_refl) as [_ Habove].
        pose proof (Habove i x ltac:(pose proof (Hin i x Hx); lia) Hx). lia.
    + destruct (isExactMatch r2) eqn:E2.
      * destruct (He2 eq_refl) as (_ & y & Hy & Hzero).
        pose proof (ordered_at compareUpper arr i (rank r2) x y Hhi
                      ltac:(lia) Hx Hy) as Hs.
        rewrite Hzero in Hs. simpl in Hs.
        destruct (Z.sgn_spec (compareUpper x)) as [[? ?]|[[? ?]|[? ?]]]; lia.
      * destruct (Hs2 Hhi eq_refl) as [Hbelow _].
        pose proof (Hbelow i x ltac:(lia) Hx). lia.
  - intros x Hx Hpos Hneg. apply In_at in Hx. destruct Hx as [i Hx].
    pose proof (Hin i x Hx) as Hi.
    apply In_slice; [lia|lia|]. exists i. split; [|exact Hx]. split.
    + destruct (Z.le_gt_cases (rank r1) i) as [?|Hlt]; [assumption|exfalso].
      destruct (isExactMatch r1) eqn:E1.
      * destruct (He1 eq_refl) as (_ & y & Hy & Hzero).
        pose proof (ordered_at compareLower arr i (rank r1) x y Hlo
                      ltac:(lia) Hx Hy) as Hs.
        rewrite Hzero, (Z.sgn_pos (compareLower x)) in Hs by lia.
        simpl in Hs. lia.
      * destruct (Hs1 Hlo eq_refl) as [Hbelow _].
        pose proof (Hbelow i x ltac:(lia) Hx). lia.
    + destruct (Z.lt_ge_cases i (rank r2)) as [?|Hge]; [assumption|exfalso].
      destruct (isExactMatch r2) eqn:E2.
      * destruct (He2 eq_refl) as (_ & y & Hy & Hzero).
        pose proof (ordered_at compareUpper arr (rank r2) i y x Hhi
                      ltac:(lia) Hy Hx) as Hs.
        rewrite Hzero, (Z.sgn_neg (compareUpper x)) in Hs by lia.
        simpl in Hs. lia.
      * destruct (Hs2 Hhi eq_refl) as [_ Habove].
        pose proof (Habove i x ltac:(lia) Hx). lia.
Qed.

End Range.

Lemma sorted_sample_ordered (target : Z) :
  ordered (MoreSamples.against target) MoreSamples.sorted_sample.
Proof.
  intros i j x y Hij Hx Hy. unfold MoreSamples.against.
  assert (Hxy : x <= y).
  { unfold MoreSamples.sorted_sample in *.
    do 4 (destruct i as [|i]; [inversion Hx; subst x;
          do 4 (destruct j as [|j]; [inversion Hy; subst y; lia|]);
          discriminate|]).
    discriminate. }
  destruct (Z.sgn_spec (x - target)) as [[? ->]|[[? ->]|[? ->]]];
  destruct (Z.sgn_spec (y - target)) as [[? ->]|[[? ->]|[? ->]]]; lia.
Qed.

(** Searching the sample array: 30 is there, 25 is not. *)
Lemma _search_returns_witness :
  exists r,
    _search (MoreSamples.against 30) 0 MoreSamples.sorted_sample = Some r /\
    0 <= rank r <= Z.max 0 (JsArray.len MoreSamples.sorted_sample) /\
    (isExactMatch r = true ->
       exists x, JsArray.at_ MoreSamples.sorted_sample (rank r) = Some x /\
                 MoreSamples.against 30 x = 0).
Proof.
  exact (_search_returns (MoreSamples.against 30) MoreSamples.sorted_sample 0
           ltac:(lia)).
Defined.

Lemma _search_insertion_point_witness :
  exists r,
    _search (MoreSamples.against 25) 0 MoreSamples.sorted_sample = Some r /\
    (isExactMatch r = false ->
       (forall i x, 0 <= i < rank r ->
          JsArray.at_ MoreSamples.sorted_sample i = Some x ->
          MoreSamples.against 25 x < 0) /\
       (forall i x, rank r <= i ->
          JsArray.at_ MoreSamples.sorted_sample i = Some x ->
          0 < MoreSamples.against 25 x)).
Proof.
  exact (_search_insertion_point (MoreSamples.against 25)
           MoreSamples.sorted_sample 0 (sorted_sample_ordered 25) ltac:(lia)).
Defined.

Lemma find_exact_match_witness :
  match find (MoreSamples.against 30) MoreSamples.sorted_sample with
  | Some (Some x) =>
      In x MoreSamples.sorted_sample /\ MoreSamples.against 30 x = 0
  | Some None =>
      forall x, In x MoreSamples.sorted_sample -> MoreSamples.against 30 x <> 0
  | None => False
  end.
Proof.
  exact (find_exact_match (MoreSamples.against 30) MoreSamples.sorted_sample
           (sorted_sample_ordered 30)).
Defined.

Lemma range_between_witness :
  exists rankLower rankUpper,
    0 <= rankLower <= rankUpper /\
    rankUpper <= JsArray.len MoreSamples.sorted_sample /\
    range (MoreSamples.against 15) (MoreSamples.against 35)
        MoreSamples.sorted_sample =
      Some (JsArray.slice rankLower (Some rankUpper) MoreSamples.sorted_sample) /\
    (forall x,
       In x (JsArray.slice rankLower (Some rankUpper) MoreSamples.sorted_sample) ->
       0 <= MoreSamples.against 15 x /\ MoreSamples.against 35 x <= 0) /\
    (forall x, In x MoreSamples.sorted_sample ->
       0 < MoreSamples.against 15 x -> MoreSamples.against 35 x < 0 ->
       In x (JsArray.slice rankLower (Some rankUpper) MoreSamples.sorted_sample)).
Proof.
  exact (range_between MoreSamples.sorted_sample (MoreSamples.against 15)
           (MoreSamples.against 35) (sorted_sample_ordered 15)
           (sorted_sample_ordered 35)).
Defined.

End BinarySearchFacts.

(** ** More on the diagnostics provider *)

Module DiagnosticsMoreFacts.
Import Diagnostics ProviderStates.

Lemma ErrorVisitor_traverse (t : Tree.tree PhpNode) (errs : list ParseError)
    (spine : list (Tree.tree PhpNode)) :
  Tree._traverse ErrorVisitor t errs spine =
    (errs ++ flat_map phrase_errors (Visitors.preorder t), spine).
Proof.
  pose (pre := fun (node : Tree.tree PhpNode) (spine : list (Tree.tree PhpNode))
                   (_errors : list ParseError) =>
                 match isPhrase (Tree.label node), errors (Tree.label node) with
                 | true, Some node_errors => (true, _errors ++ node_errors)
                 | _, _ => (true, _errors)
                 end).
  assert (Hstep : forall n s acc, pre n s acc = (true, acc ++ phrase_errors n)).
  { intros n s acc. unfold pre, phrase_errors.
    destruct (isPhrase (Tree.label n)), (errors (Tree.label n)); simpl;
      rewrite ?app_nil_r; reflexivity. }
  rewrite (VisitorFacts._traverse_collects ErrorVisitor pre);
    try reflexivity; [|intros n s v; now rewrite Hstep].
  f_equal.
  rewrite <- (VisitorFacts.nodes_with_ancestors_preorder spine t).
  generalize (Observed.nodes_with_ancestors spine t). intros l. revert errs.
  induction l as [|n l IH]; intros acc; simpl.
  - now rewrite app_nil_r.
  - rewrite Hstep. simpl. rewrite IH. now rewrite <- app_assoc.
Qed.

Lemma doc_traverse_errors (doc : ParsedDocument) :
  doc_traverse ErrorVisitor [] doc =
    Some (flat_map phrase_errors (Visitors.preorder (root doc))).
Proof.
  unfold doc_traverse, Tree.traverse.
  change (Tree.node (Tree.mkTraverser [root doc])) with (Some (root doc)).
  cbv beta iota. now rewrite ErrorVisitor_traverse.
Qed.

(** X16: A traversal of a document with an [ErrorVisitor] gathers the parse
    errors attached to the phrases of its tree, in depth-first preorder;
    what is attached to a token is left out. *)
Theorem ErrorVisitor_collects (doc : ParsedDocument) :
  doc_traverse ErrorVisitor [] doc =
    Some (flat_map phrase_errors (Visitors.preorder (root doc))).
Proof. exact (doc_traverse_errors doc). Qed.

Section Provider.
Context {Range : Type}.
Variable tokenRange : ParsedDocument -> Token -> Range.
Variable tokenTypeToString : Z -> string.
Implicit Types (p : DiagnosticsProvider Range) (doc : ParsedDocument)
  (target u : string).

Lemma with_docs_same p : with_docs (_docs p) p = p.
Proof. now destruct p. Qed.

(** What a lookup returns and what it leaves. *)
Lemma _find_found target p d :
  last_with target (_docs p) None = Some d ->
  _find target p = (Some d, with_docs (d :: others target (_docs p)) p) /\
  uri d = target /\ In d (_docs p).
Proof.
  intros Hl. rewrite DiagnosticsFacts._find_spec, Hl.
  split; [reflexivity|].
  apply DiagnosticsFacts.last_with_some in Hl.
  destruct Hl as [[Hin Hu]|Hl]; [auto|discriminate].
Qed.

Lemma _find_missing target p :
  last_with target (_docs p) None = None ->
  _find target p = (None, p) /\ ~ registered target p.
Proof.
  intros Hl. rewrite DiagnosticsFacts._find_spec, Hl.
  pose proof (DiagnosticsFacts.last_with_none target (_docs p) Hl) as Hnone.
  rewrite DiagnosticsFacts.others_fresh by exact Hnone.
  rewrite with_docs_same. split; [reflexivity|].
  intros (d & Hin & Hu). exact (Hnone d Hin Hu).
Qed.













Lemma uri_unique (docs : list ParsedDocument) x y :
  List.NoDup (map uri docs) -> In x docs -> In y docs -> uri x = uri y ->
  x = y.
Proof.
  induction docs as [|d docs IH]; intros Hnd Hx Hy Hu; [contradiction|].
  inversion Hnd as [|? ? Hnotin Hrest]; subst.
  destruct Hx as [<-|Hx], Hy as [<-|Hy]; auto.
  - exfalso. apply Hnotin. rewrite Hu. now apply in_map.
  - exfalso. apply Hnotin. rewrite <- Hu. now apply in_map.
Qed.

Lemma last_with_registered target p d :
  List.NoDup (map uri (_docs p)) -> In d (_docs p) -> uri d = target ->
  last_with target (_docs p) None = Some d.
Proof.
  intros Hnd Hin Hu.
  destruct (last_with target (_docs p) None) as [d'|] eqn:Hl.
  - apply DiagnosticsFacts.last_with_some in Hl.
    destruct Hl as [[Hin' Hu']|Hl]; [|discriminate].
    f_equal. apply (uri_unique (_docs p)); auto. congruence.
  - exfalso. exact (DiagnosticsFacts.last_with_none target (_docs p) Hl d Hin Hu).
Qed.

Lemma _find_after (calls : list call) :
  let p := after tokenRange tokenTypeToString calls in
  (forall d, In d (_docs p) ->
     _find (uri d) p =
       (Some d, with_docs (d :: others (uri d) (_docs p)) p)) /\
  (forall target, ~ registered target p -> _find target p = (None, p)).
Proof.
  intros p.
  destruct (DiagnosticsFacts.kept_after tokenRange tokenTypeToString calls)
    as [Hnd _].
  fold p in Hnd. split.
  - intros d Hin.
    pose proof (last_with_registered (uri d) p d Hnd Hin eq_refl) as Hl.
    now destruct (_find_found (uri d) p d Hl).
  - intros target Hnot.
    destruct (last_with target (_docs p) None) as [d|] eqn:Hl.
    + exfalso. apply Hnot. apply DiagnosticsFacts.registered_iff.
      rewrite Hl. eauto.
    + now destruct (_find_missing target p Hl).
Qed.

(** X17: On a provider reached by any calls, a lookup of the URI of a
    registered document returns that document and moves it to the front of
    the list, the other documents keeping their order; a lookup of any other
    URI returns nothing and leaves the provider as it is. *)
Theorem _find_moves_to_front (calls : list call) :
  let p := after tokenRange tokenTypeToString calls in
  (forall d, In d (_docs p) ->
     _find (uri d) p =
       (Some d, with_docs (d :: others (uri d) (_docs p)) p)) /\
  (forall target, ~ registered target p -> _find target p = (None, p)).
Proof. exact (_find_after calls). Qed.



(** No call makes [__proto__] an own key of the map of diagnostics. *)
Let unkeyed (p : DiagnosticsProvider Range) : Prop :=
  JsObject.own (_diagnosticsMap p) !! "__proto__" = None.

Lemma unkeyed_set target (items : list (Diagnostic Range))
    (m : JsObject.object (Diagnostic Range)) :
  JsObject.own m !! "__proto__" = None ->
  JsObject.own (JsObject.set target items m) !! "__proto__" = None.
Proof.
  intros Hm. unfold JsObject.set.
  destruct (String.eqb_spec target "__proto__") as [->|Hne]; simpl;
    [exact Hm|].
  now rewrite lookup_insert_ne.
Qed.

(** [_diagnose] leaves the map as it is or assigns under the URI. *)
Lemma _diagnose_map target p :
  let m' := _diagnosticsMap (snd (_diagnose tokenRange tokenTypeToString target p)) in
  m' = _diagnosticsMap p \/
  exists items, m' = JsObject.set target items (_diagnosticsMap p).
Proof.
  unfold _diagnose.
  destruct (DiagnosticsFacts._find_fields target p)
    as (_ & _ & _ & _ & _ & Hm).
  destruct (_find target p) as [[d|] p1]; cbn [snd] in Hm |- *;
    [|now left].
  destruct (doc_traverse ErrorVisitor [] d) as [parseErrors|];
    cbn [snd]; [|now left].
  destruct (_diagnose_loop _ _ _); cbn [snd _diagnosticsMap];
    rewrite Hm; right; eauto.
Qed.

Lemma unkeyed_step p c :
  unkeyed p -> unkeyed (step tokenRange tokenTypeToString p c).
Proof.
  unfold unkeyed. intros Hp.
  destruct c as [doc|target|target|value|value|args]; simpl.
  - unfold add, has.
    destruct (DiagnosticsFacts._find_fields (uri doc) p)
      as (_ & _ & _ & _ & _ & Hm).
    destruct (_find (uri doc) p) as [[d|] p1]; simpl in *; now rewrite Hm.
  - unfold remove, has.
    destruct (DiagnosticsFacts._find_fields target p)
      as (_ & _ & _ & _ & _ & Hm).
    destruct (_find target p) as [[d|] p1]; simpl in *; [|now rewrite Hm].
    destruct (_unsubscribeMap p1 !! target); simpl; [|now rewrite Hm].
    destruct (_debounceMap p1 !! target); simpl; now rewrite Hm.
  - rewrite DiagnosticsFacts.has_snd.
    destruct (DiagnosticsFacts._find_fields target p)
      as (_ & _ & _ & _ & _ & Hm).
    simpl in Hm. now rewrite Hm.
  - exact Hp.
  - exact Hp.
  - unfold _onParsedDocumentChanged.
    pose proof (_diagnose_map (uri (parsedDocument args)) p) as Hmap.
    destruct (_diagnose _ _ _ p) as [[diags|e] p']; cbn [snd] in Hmap |- *;
      (destruct Hmap as [->|[items ->]]; [exact Hp|now apply unkeyed_set]).
Qed.

Lemma unkeyed_after calls : unkeyed (after tokenRange tokenTypeToString calls).
Proof.
  unfold after.
  assert (Hgen : forall p, unkeyed p ->
            unkeyed (fold_left (step tokenRange tokenTypeToString) calls p)).
  { induction calls as [|c calls IH]; intros p Hp; simpl; [exact Hp|].
    apply IH. now apply unkeyed_step. }
  apply Hgen. reflexivity.
Qed.

(** A read under the URI of a document, handed to [push.apply], when the map
    inherits from [Object.prototype] only. *)
Lemma push_apply_get (m : JsObject.object (Diagnostic Range)) key
    (array : list (option (Diagnostic Range))) :
  JsObject.prototype m = None ->
  JsObject.own m !! "__proto__" = None ->
  JsObject.push_apply array (JsObject.get key m) =
    Some (array ++ kept_under m key).
Proof.
  intros Hproto Hown. unfold JsObject.get, kept_under. rewrite Hproto.
  destruct (String.eqb_spec key "__proto__") as [->|Hne].
  - rewrite Hown. simpl. now rewrite app_nil_r.
  - destruct (JsObject.own m !! key) as [items|]; [reflexivity|].
    unfold JsObject.inherited_function. cbn [omap list_omap].
    destruct (JsObject.member key JsObject.Object_prototype) as [n|];
      cbn [default JsObject.push_apply replicate];
      [reflexivity|now rewrite app_nil_r].
Qed.

Lemma _diagnose_loop_gathers (m : JsObject.object (Diagnostic Range))
    (docs : list ParsedDocument) :
  JsObject.prototype m = None ->
  JsObject.own m !! "__proto__" = None ->
  forall array,
    _diagnose_loop m docs array =
      Some (array ++ flat_map (fun x => kept_under m (uri x)) docs).
Proof.
  intros Hproto Hown.
  induction docs as [|x docs IH]; intros array; simpl.
  - now rewrite app_nil_r.
  - rewrite push_apply_get by assumption. rewrite IH.
    now rewrite <- app_assoc.
Qed.

(** X20: On a provider reached by any calls whose map of diagnostics inherits
    from [Object.prototype] only, [_diagnose(uri)] for a registered document
    with a URI other than [__proto__] rescans that document only: it returns
    one diagnostic for each parse error of the document, in the order of the
    tree, followed by what is kept for the other documents, uncut; it keeps
    the new list under the URI and leaves the lists of the others.  For a
    URI that is not registered it throws and leaves the provider as it
    is. *)
Theorem _diagnose_rescans_one (calls : list call) :
  let p := after tokenRange tokenTypeToString calls in
  JsObject.prototype (_diagnosticsMap p) = None ->
  (forall d, In d (_docs p) -> uri d <> "__proto__" ->
     let fresh :=
       map (fun err => _parseErrorToDiagnostic tokenRange tokenTypeToString err d)
         (flat_map phrase_errors (Visitors.preorder (root d))) in
     _diagnose tokenRange tokenTypeToString (uri d) p =
       (Returns
          ((Some <$> fresh) ++
           flat_map (fun x => kept_under (_diagnosticsMap p) (uri x))
             (others (uri d) (_docs p))),
        mkProvider (maxItems p) (d :: others (uri d) (_docs p))
          (_debounceWaitTime p) (_debounceMap p) (_unsubscribeMap p)
          (JsObject.mkObject
             (<[uri d := fresh]> (JsObject.own (_diagnosticsMap p))) None)
          (_maxItems p))) /\
  (forall target, ~ registered target p ->
     _diagnose tokenRange tokenTypeToString target p = (Throws "TypeError", p)).
Proof.
  intros p Hproto.
  destruct (DiagnosticsFacts.kept_after tokenRange tokenTypeToString calls)
    as [Hnd Hmax].
  fold p in Hnd, Hmax.
  pose proof (unkeyed_after calls) as Hown. unfold unkeyed in Hown.
  fold p in Hown.
  pose proof (_find_after calls) as [Hfound Hmissing].
  fold p in Hfound, Hmissing. split.
  - intros d Hin Hkey fresh. unfold _diagnose. rewrite (Hfound d Hin).
    rewrite doc_traverse_errors. fold fresh.
    cbn [with_docs maxItems _docs _debounceWaitTime _debounceMap
         _unsubscribeMap _diagnosticsMap _maxItems].
    unfold JsObject.set.
    rewrite (proj2 (String.eqb_neq (uri d) "__proto__") Hkey), Hproto.
    set (m' := JsObject.mkObject
                 (<[uri d := fresh]> (JsObject.own (_diagnosticsMap p))) None).
    rewrite (_diagnose_loop_gathers m') by
      (try reflexivity; simpl; now rewrite lookup_insert_ne).
    rewrite Hmax, JsArrayFacts.slice_copy.
    cbn [flat_map app]. do 3 f_equal.
    + unfold kept_under, m'. simpl. now rewrite lookup_insert_eq.
    + assert (Hext : forall l : list ParsedDocument,
                (forall x, In x l -> uri x <> uri d) ->
                flat_map (fun x => kept_under m' (uri x)) l
                = flat_map (fun x => kept_under (_diagnosticsMap p) (uri x)) l).
      { induction l as [|x l IH]; intros Hall; simpl; [reflexivity|].
        f_equal; [|apply IH; intros y Hy; apply Hall; now right].
        unfold kept_under, m'. simpl.
        rewrite lookup_insert_ne; [reflexivity|].
        intros Heq. apply (Hall x); [now left|auto]. }
      apply Hext. intros x Hx. apply DiagnosticsFacts.others_In in Hx. tauto.
  - intros target Hnot. unfold _diagnose. now rewrite (Hmissing target Hnot).
Qed.

End Provider.

(** The second sample document: the error on the token is left out. *)
Lemma ErrorVisitor_collects_witness :
  doc_traverse ErrorVisitor [] MoreSamples.other_doc =
    Some [MoreSamples.other_error 8; MoreSamples.other_error 9].
Proof. exact (ErrorVisitor_collects MoreSamples.other_doc). Defined.

(** Two documents added: the first added is the last of the list, and a
    lookup brings it to the front. *)
Lemma _find_moves_to_front_witness :
  let tokenRange := fun (_ : ParsedDocument) (_ : Token) => tt in
  let tokenTypeToString := fun _ : Z => "T_STRING" in
  let p := after tokenRange tokenTypeToString
             [CallAdd Samples.sample_doc; CallAdd MoreSamples.other_doc] in
  let d := List.last (_docs p) Samples.sample_doc in
  map uri (_docs p) = ["file:///b.php"; "file:///a.php"] /\
  _find "file:///a.php" p =
    (Some d, with_docs (d :: others "file:///a.php" (_docs p)) p) /\
  _find "file:///c.php" p = (None, p).
Proof.
  intros tokenRange tokenTypeToString p d.
  destruct (_find_moves_to_front tokenRange tokenTypeToString
              [CallAdd Samples.sample_doc; CallAdd MoreSamples.other_doc])
    as [Hfound Hmissing].
  split; [reflexivity|]. split.
  - exact (Hfound d (or_intror (or_introl eq_refl))).
  - apply Hmissing. intros (x & [<-|[<-|[]]] & Hu); discriminate.
Defined.


(** Two documents registered and none diagnosed yet, one of them under the
    URI [constructor]: diagnosing the other returns its two diagnostics and
    one [undefined]. *)
Lemma _diagnose_rescans_one_witness :
  let tokenRange := fun (_ : ParsedDocument) (_ : Token) => tt in
  let tokenTypeToString := fun _ : Z => "T_STRING" in
  let p := after tokenRange tokenTypeToString
             [CallAdd MoreSamples.constructor_doc; CallAdd MoreSamples.other_doc] in
  let d := hd MoreSamples.other_doc (_docs p) in
  map uri (_docs p) = ["file:///b.php"; "constructor"] /\
  fst (_diagnose tokenRange tokenTypeToString "file:///b.php" p) =
    Returns
      [Some (_parseErrorToDiagnostic tokenRange tokenTypeToString
               (MoreSamples.other_error 8) d);
       Some (_parseErrorToDiagnostic tokenRange tokenTypeToString
               (MoreSamples.other_error 9) d);
       None] /\
  fst (_diagnose tokenRange tokenTypeToString "file:///c.php" p) =
    Throws "TypeError".
Proof.
  intros tokenRange tokenTypeToString p d.
  destruct (_diagnose_rescans_one tokenRange tokenTypeToString
              [CallAdd MoreSamples.constructor_doc; CallAdd MoreSamples.other_doc]
              eq_refl)
    as [Hfound Hmissing].
  split; [reflexivity|]. split.
  - pose proof (Hfound d (or_introl eq_refl) ltac:(discriminate)) as Hd.
    change (uri d) with "file:///b.php" in Hd.
    fold p in Hd. rewrite Hd. reflexivity.
  - rewrite Hmissing; [reflexivity|].
    intros (x & [<-|[<-|[]]] & Hu); discriminate.
Defined.


End DiagnosticsMoreFacts.
